(** * dd2025: spell selection, grimoire aggregation and slot accounting

    A shallow embedding of the data-transformation logic of three React
    components of the application:

    - [SpellSelectionModal]: [classSpells], [filteredAndSortedSpells],
      [listItems], [toggleSpellSelection], [handleSelectAll];
    - [GrimoireTab]: [getSpellByName], [prepareCharacterSpells],
      [updateSpellSlot];
    - [CharactersTab]: [loadCharacters], [handleDeleteCharacter],
      [handleAddSpellsToGrimoire].

    JavaScript numbers that the code uses as counters and levels are
    integers ([Z], in the range where JavaScript numbers are exact);
    [Set<string>] and [Set<number>] are [gset]; the [spell_slots] object
    is a [gmap] from the level to its stored value; React state is an
    explicit record threaded through each handler, which reads the state
    it was created in and returns the state after its setters have run
    together with the alerts it raised and the requests it sent; the
    outside world (session provider, remote store, local storage) is a
    record of the answers the handler receives. *)

From Stdlib Require Import ZArith String Ascii List Sorted Permutation Lia.
From stdpp Require Import base gmap sets list strings pretty sorting.

Local Open Scope Z_scope.

(** ** The JavaScript runtime the components rely on *)

(** The string built-ins used by the source.  Their Unicode and locale
    behaviour is left to the runtime; the only law used is that
    [localeCompare] is a consistent comparator: when [a] sorts after [b],
    [b] does not sort after [a]. *)
Class JsStrings := {
  toLowerCase : string → string;
  trim : string → string;
  (** [includes s t] is [s.includes(t)] *)
  includes : string → string → bool;
  localeCompare : string → string → Z;
  localeCompare_total : ∀ a b, 0 < localeCompare a b → localeCompare b a ≤ 0
}.

(** An executable runtime for ASCII text, on which it agrees with the
    JavaScript built-ins (bytes outside ASCII are left untouched and
    ordered by value). *)
Module AsciiRuntime.

Definition lower_char (c : ascii) : ascii :=
  let n := nat_of_ascii c in
  if ((65 <=? n)%nat && (n <=? 90)%nat)%bool then ascii_of_nat (n + 32) else c.

Fixpoint lower (s : string) : string :=
  match s with
  | EmptyString => EmptyString
  | String c s' => String (lower_char c) (lower s')
  end.

Definition is_space (c : ascii) : bool :=
  let n := nat_of_ascii c in
  ((n =? 32)%nat || ((9 <=? n)%nat && (n <=? 13)%nat))%bool.

Fixpoint trim_start (s : string) : string :=
  match s with
  | EmptyString => EmptyString
  | String c s' => if is_space c then trim_start s' else s
  end.

Fixpoint trim_end (s : string) : string :=
  match s with
  | EmptyString => EmptyString
  | String c s' =>
      match trim_end s' with
      | EmptyString => if is_space c then EmptyString else String c EmptyString
      | r => String c r
      end
  end.

Definition strip (s : string) : string := trim_end (trim_start s).

Fixpoint contains (s t : string) : bool :=
  String.prefix t s ||
  match s with
  | EmptyString => false
  | String _ s' => contains s' t
  end.

Definition compare (a b : string) : Z :=
  match String.compare a b with
  | Lt => -1
  | Eq => 0
  | Gt => 1
  end.

End AsciiRuntime.

#[export] Instance ascii_strings : JsStrings.
Proof.
  refine {| toLowerCase := AsciiRuntime.lower;
            trim := AsciiRuntime.strip;
            includes := AsciiRuntime.contains;
            localeCompare := AsciiRuntime.compare |}.
  intros a b. unfold AsciiRuntime.compare.
  rewrite (String.compare_antisym a b).
  destruct (String.compare b a); simpl; lia.
Defined.

(** A string in a boolean position: only the empty string is falsy. *)
Definition truthy (s : string) : bool := negb (bool_decide (s = "")).

(** [Array.prototype.sort(cmp)] with a numeric comparator.  The sort is
    stable; for a consistent comparator every stable sort returns the
    same array, here the one built by insertion from the right. *)
Section ArraySort.
Context {A : Type} (cmp : A → A → Z).

Fixpoint sort_insert (x : A) (l : list A) : list A :=
  match l with
  | [] => [x]
  | y :: l' => if decide (cmp x y ≤ 0) then x :: y :: l' else y :: sort_insert x l'
  end.

Definition array_sort (l : list A) : list A := foldr sort_insert [] l.
End ArraySort.

(** ** Reference data: spells and classes *)

Module Spell.
(** Modelled from the spec: the [Spell] type of [@/types/spell], which
    is not among the sources ("identifier, name, level, school, casting
    time, range, list of eligible class names, list of eligible subclass
    names"), with the fields the components read.  [classes] and
    [subclasses] are [None] when the property is missing or not an
    array, as the loader checks for. *)
Record t := mk {
  id : string;
  name : string;
  level : Z;
  school : string;
  castingTime : string;
  range : string;
  classes : option (list string);
  subclasses : option (list string)
}.
End Spell.

Module DnDClass.
(** Modelled from the spec: the [DnDClass] type of [@/types/dndClass],
    which is not among the sources ("name, optional list of subclass
    descriptors (each either a bare name or a named object),
    spellcasting capability flag").  A subclass descriptor is a bare
    name, an object that may carry a [name], or [null], the three cases
    the loader tells apart; [name] is [None] when the class has none. *)
Inductive subclass :=
| SubName (s : string)
| SubObject (name : option string)
| SubNull.

Record t := mk {
  name : option string;
  subclasses : option (list subclass);
  spellcasting : bool
}.
End DnDClass.

(** ** SpellSelectionModal *)

Module SpellSelectionModal.

(** What [localStorage.getItem('customSpells')] followed by
    [JSON.parse] gives: no item, a value on which parsing or the later
    array operations throw, or an array of spells. *)
Inductive storedSpells :=
| NoItem
| Unparsable
| Parsed (l : list Spell.t).

(** The places spell data comes from.  [adaptedSpells] is the result of
    [adaptSpellsFromLivroDoJogador] on the alternate dataset, [None]
    when the dataset is absent or the adapter throws. *)
Record sources := {
  platform_web : bool;
  customSpells : storedSpells;
  defaultSpells : list Spell.t;
  adaptedSpells : option (list Spell.t)
}.

Inductive SpellListItem :=
| Header (level : Z) (id : string)
| SpellRow (spell : Spell.t) (id : string).

(** The component's own state ([useState]). *)
Record state := {
  selectedSpells : gset string;
  searchText : string;
  selectedSchool : option string;
  expandedLevels : gset Z
}.

Definition allLevels : gset Z :=
  list_to_set [0; 1; 2; 3; 4; 5; 6; 7; 8; 9].

Definition initial : state :=
  {| selectedSpells := ∅; searchText := ""; selectedSchool := None;
     expandedLevels := allLevels |}.

Section Component.
Context `{JsStrings}.

(** [spellsData] as it stands before the filter; [None] when an
    exception reaches the outer [catch]. *)
Definition spellsData (src : sources) : option (list Spell.t) :=
  let custom :=
    if platform_web src then
      match customSpells src with
      | NoItem => Some []
      | Unparsable => None
      | Parsed l => Some l
      end
    else Some [] in
  match custom with
  | None => None
  | Some [] =>
      Some (match adaptedSpells src with
            | Some (a :: l) => a :: l
            | _ => defaultSpells src
            end)
  | Some l => Some l
  end.

Definition isClassSpell (className : string) (spell : Spell.t) : bool :=
  match Spell.classes spell with
  | Some cl =>
      existsb (λ c, truthy c &&
                    bool_decide (toLowerCase (trim c) = toLowerCase className)) cl
  | None => false
  end.

Definition subclassMatches (subclass : string)
    (classSubclass : DnDClass.subclass) : bool :=
  match classSubclass with
  | DnDClass.SubName s => bool_decide (toLowerCase s = toLowerCase subclass)
  | DnDClass.SubObject (Some n) =>
      truthy n && bool_decide (toLowerCase n = toLowerCase subclass)
  | DnDClass.SubObject None => false
  | DnDClass.SubNull => false
  end.

Definition isSubclassSpell (characterClass : DnDClass.t) (spell : Spell.t) : bool :=
  match Spell.subclasses spell, DnDClass.subclasses characterClass with
  | Some sl, Some cl =>
      existsb (λ subclass, existsb (subclassMatches subclass) cl) sl
  | _, _ => false
  end.

Definition classSpells (src : sources) (characterClass : option DnDClass.t)
    : list Spell.t :=
  match characterClass with
  | None => []
  | Some c =>
      match DnDClass.name c with
      | None => []
      | Some className =>
          if truthy className then
            match spellsData src with
            | None => []
            | Some data =>
                List.filter
                  (λ spell, isClassSpell className spell || isSubclassSpell c spell)
                  data
            end
          else []
      end
  end.

Definition matchesSearch (searchText : string) (spell : Spell.t) : bool :=
  negb (truthy searchText) ||
  includes (toLowerCase (Spell.name spell)) (toLowerCase searchText).

Definition matchesSchool (selectedSchool : option string) (spell : Spell.t) : bool :=
  match selectedSchool with
  | Some sch =>
      if truthy sch then
        truthy (Spell.school spell) &&
        bool_decide (toLowerCase (trim (Spell.school spell)) = toLowerCase sch)
      else true
  | None => true
  end.

Definition compareSpells (a b : Spell.t) : Z :=
  if decide (Spell.level a ≠ Spell.level b)
  then Spell.level a - Spell.level b
  else localeCompare (Spell.name a) (Spell.name b).

Definition filteredAndSortedSpells (classSpells : list Spell.t)
    (searchText : string) (selectedSchool : option string) : list Spell.t :=
  array_sort compareSpells
    (List.filter
       (λ spell, matchesSearch searchText spell && matchesSchool selectedSchool spell)
       classSpells).
End Component.

(** One turn of the [forEach] in [listItems]: the accumulator is the
    pair of [currentLevel] and [items]. *)
Definition listItems_step (expandedLevels : gset Z)
    (acc : Z * list SpellListItem) (spell : Spell.t) : Z * list SpellListItem :=
  let '(currentLevel, items) := acc in
  let '(currentLevel, items) :=
    if decide (Spell.level spell ≠ currentLevel)
    then (Spell.level spell,
          items ++ [Header (Spell.level spell)
                      ("header-" +:+ pretty (Spell.level spell))])
    else (currentLevel, items) in
  let items :=
    if decide (Spell.level spell ∈ expandedLevels)
    then items ++ [SpellRow spell (Spell.id spell)]
    else items in
  (currentLevel, items).

Definition listItems (filteredAndSortedSpells : list Spell.t)
    (expandedLevels : gset Z) : list SpellListItem :=
  snd (foldl (listItems_step expandedLevels) (-1, []) filteredAndSortedSpells).

Definition toggleLevelExpansion (level : Z) (st : state) : state :=
  {| selectedSpells := selectedSpells st;
     searchText := searchText st;
     selectedSchool := selectedSchool st;
     expandedLevels :=
       if decide (level ∈ expandedLevels st)
       then expandedLevels st ∖ {[level]}
       else expandedLevels st ∪ {[level]} |}.

Definition setSelectedSpells (s : gset string) (st : state) : state :=
  {| selectedSpells := s;
     searchText := searchText st;
     selectedSchool := selectedSchool st;
     expandedLevels := expandedLevels st |}.

Definition toggleSpellSelection (spellId : string) (st : state) : state :=
  setSelectedSpells
    (if decide (spellId ∈ selectedSpells st)
     then selectedSpells st ∖ {[spellId]}
     else selectedSpells st ∪ {[spellId]}) st.

(** [filtered] is the current value of [filteredAndSortedSpells]. *)
Definition handleSelectAll (filtered : list Spell.t) (st : state) : state :=
  if decide (size (selectedSpells st) = length filtered)
  then setSelectedSpells ∅ st
  else setSelectedSpells (list_to_set (Spell.id <$> filtered)) st.

(** The batch handed to [onAddSpells] by [handleAddSelectedSpells]. *)
Definition spellsToAdd (filtered : list Spell.t) (st : state) : list Spell.t :=
  List.filter (λ spell, bool_decide (Spell.id spell ∈ selectedSpells st)) filtered.

(** [Array.prototype.sort()] without a comparator orders strings by
    their code units, here the bytes of the string. *)
Definition defaultCompare (a b : string) : Z := AsciiRuntime.compare a b.

Section Schools.
Context `{JsStrings}.

(** One turn of the [forEach] in [availableSchools].  The [Set] is kept
    as the list of its members in insertion order, which is what
    [Array.from] hands to the sort. *)
Definition addSchool (schoolSet : list string) (spell : Spell.t) : list string :=
  if truthy (Spell.school spell) && truthy (trim (Spell.school spell)) then
    if decide (trim (Spell.school spell) ∈ schoolSet) then schoolSet
    else schoolSet ++ [trim (Spell.school spell)]
  else schoolSet.

Definition availableSchools (classSpells : list Spell.t) : list string :=
  array_sort defaultCompare (foldl addSchool [] classSpells).
End Schools.

(** What the selection modal does to its surroundings: a warning
    ([alert] on the web, [Alert.alert] elsewhere), a confirmation
    question, and the two callbacks it was given. *)
Inductive effect :=
| Warned (web : bool) (message : string)
| Asked (web : bool) (message : string)
| OnAddSpells (spells : list Spell.t)
| OnClose.

Definition handleClose (st : state) : state * list effect :=
  (initial, [OnClose]).

(** [confirmed] is the user's answer to the confirmation question. *)
Definition handleAddSelectedSpells (web confirmed : bool) (characterName : string)
    (filtered : list Spell.t) (st : state) : state * list effect :=
  if decide (size (selectedSpells st) = 0%nat) then
    (st, [Warned web "Selecione pelo menos uma magia para adicionar ao grimório."])
  else
    let batch := spellsToAdd filtered st in
    let confirmMessage :=
      "Adicionar " +:+ pretty (length batch) +:+ " magia(s) ao grimório de " +:+
      characterName +:+ "?" in
    if confirmed then
      let '(st', evs) := handleClose st in
      (st', Asked web confirmMessage :: OnAddSpells batch :: evs)
    else (st, [Asked web confirmMessage]).

(** The key the list gives each entry ([keyExtractor]). *)
Definition itemId (item : SpellListItem) : string :=
  match item with
  | Header _ id => id
  | SpellRow _ id => id
  end.

(** The number a level header shows: [spellsInLevel] in [renderItem]. *)
Definition spellsInLevel (filtered : list Spell.t) (level : Z) : nat :=
  length (List.filter (λ s, bool_decide (Spell.level s = level)) filtered).

End SpellSelectionModal.

(** ** Characters and the remote store *)

Module Character.
(** A value stored under a level of [spell_slots]: an array of numbers,
    or anything that is not an array. *)
Inductive slotValue :=
| SlotArray (slots : list Z)
| SlotOther.

(** An entry of [spells_known]: a bare name, or an object with a name
    and a level. *)
Inductive knownSpell :=
| KnownName (s : string)
| KnownObject (name : string) (level : Z).

(** Modelled from the spec: the [Character] type of [@/types/database],
    which is not among the sources ("identifier, name, class name,
    level, current/max hit points, a mapping from spell level (as key)
    to a pair (current slots, max slots), and a list of known spells").
    [spell_slots] is [None] when it is absent, [null] or not an object;
    its keys are the decimal renderings of levels ([level.toString()]
    on the way in, [parseInt] on the way out) and are represented by
    the level itself.  [spells_known] is [None] when absent. *)
Record t := mk {
  id : string;
  name : string;
  class_name : string;
  level : Z;
  hp_current : Z;
  hp_max : Z;
  spell_slots : option (gmap Z slotValue);
  spells_known : option (list knownSpell)
}.

Definition knownSpellName (spellData : knownSpell) : string :=
  match spellData with
  | KnownName s => s
  | KnownObject n _ => n
  end.
End Character.

Module Remote.
Inductive sessionResult :=
| SessionThrows
| NoSession
| Session (access_token : string).

Inductive method := GET | PUT.

Inductive body :=
| NoBody
| SpellSlotsBody (spell_slots : gmap Z Character.slotValue)
| SpellsKnownBody (spells_known : list Character.knownSpell).

Record request := {
  url : string;
  meth : method;
  authorization : string;
  payload : body
}.

(** What awaiting [fetch] gives: a thrown network error, or a response
    with its [ok] flag and the value of [response.json()] ([None] when
    parsing the body throws). *)
Inductive fetchResult (A : Type) :=
| NetworkError
| Response (ok : bool) (json : option A).
Arguments NetworkError {A}.
Arguments Response {A} ok json.

(** Observable effects of a handler besides its state updates. *)
Inductive event :=
| Alert (title message : string)
| WebAlert (message : string)
| ConsoleError (message : string)
| Sent (req : request).

Definition bearer (access_token : string) : string := "Bearer " +:+ access_token.
End Remote.

(** ** GrimoireTab *)

Module GrimoireTab.
Import Remote.

Record SpellSlotInfo := {
  current : Z;
  max : Z;
  level : Z
}.

Record CharacterSpells := {
  character : Character.t;
  spells : list Spell.t;
  spellsByLevel : gmap Z (list Spell.t);
  spellSlots : list SpellSlotInfo;
  characterClass : option DnDClass.t
}.

Record state := {
  characters : list Character.t;
  selectedCharacter : option CharacterSpells;
  loading : bool;
  refreshing : bool;
  allSpells : list Spell.t
}.

Definition setCharacters (cs : list Character.t) (st : state) : state :=
  {| characters := cs; selectedCharacter := selectedCharacter st;
     loading := loading st; refreshing := refreshing st;
     allSpells := allSpells st |}.

Definition setSelectedCharacter (sel : option CharacterSpells) (st : state) : state :=
  {| characters := characters st; selectedCharacter := sel;
     loading := loading st; refreshing := refreshing st;
     allSpells := allSpells st |}.

(** The answers the outside gives during one run of [updateSpellSlot]. *)
Record world := {
  session : sessionResult;
  put : request → fetchResult Character.t
}.

Inductive slotField := Current | Max.

Definition getSpellByName (allSpells : list Spell.t) (spellName : string)
    : option Spell.t :=
  List.find (λ spell, bool_decide (Spell.name spell = spellName)) allSpells.

(** [spellsByLevel[spell.level].push(spell)], creating the list first
    when the level has none. *)
Definition pushByLevel (m : gmap Z (list Spell.t)) (spell : Spell.t)
    : gmap Z (list Spell.t) :=
  <[Spell.level spell := default [] (m !! Spell.level spell) ++ [spell]]> m.

(** The body of the [forEach] over [Object.entries(character.spell_slots)]. *)
Definition slotInfo (entry : Z * Character.slotValue) : option SpellSlotInfo :=
  match entry with
  | (lvl, Character.SlotArray (c :: m :: _)) =>
      Some {| current := c; max := m; level := lvl |}
  | _ => None
  end.

(** The arguments of the [fetch] that persists a slot mapping. *)
Definition slotsRequest (c : Character.t) (access_token : string)
    (currentSlots : gmap Z Character.slotValue) : request :=
  {| url := "/api/characters/" +:+ Character.id c;
     meth := PUT;
     authorization := bearer access_token;
     payload := SpellSlotsBody currentSlots |}.

Section Component.
Context `{JsStrings}.
Context (classesData : list DnDClass.t).

Definition compareNames (a b : Spell.t) : Z :=
  localeCompare (Spell.name a) (Spell.name b).

Definition prepareCharacterSpells (allSpells : list Spell.t)
    (character : Character.t) : CharacterSpells :=
  let characterClass :=
    List.find
      (λ cls, bool_decide (DnDClass.name cls = Some (Character.class_name character)))
      classesData in
  let knownSpellNames := default [] (Character.spells_known character) in
  let spells :=
    omap (λ spellData, getSpellByName allSpells (Character.knownSpellName spellData))
         knownSpellNames in
  let spellsByLevel := foldl pushByLevel ∅ spells in
  let spellsByLevel := array_sort compareNames <$> spellsByLevel in
  let spellSlots :=
    match Character.spell_slots character with
    | Some slots => omap slotInfo (map_to_list slots)
    | None => []
    end in
  let spellSlots := array_sort (λ a b, level a - level b) spellSlots in
  {| character := character;
     spells := spells;
     spellsByLevel := spellsByLevel;
     spellSlots := spellSlots;
     characterClass := characterClass |}.

Definition handleCharacterPress (character : Character.t) (st : state) : state :=
  setSelectedCharacter (Some (prepareCharacterSpells (allSpells st) character)) st.

(** The two assignments to [slots[0]] and [slots[1]].  An array with
    fewer than two entries makes the arithmetic run on [undefined]
    and produce [NaN], which integers do not represent: [None]. *)
Definition adjustSlots (type : slotField) (delta : Z) (slots : list Z)
    : option (list Z) :=
  match slots with
  | s0 :: s1 :: rest =>
      match type with
      | Current => Some (Z.max 0 (Z.min s1 (s0 + delta)) :: s1 :: rest)
      | Max =>
          let s1' := Z.max 0 (s1 + delta) in
          Some (Z.min s0 s1' :: s1' :: rest)
      end
  | _ => None
  end.

Definition replaceCharacter (id : string) (updated : Character.t)
    (prev : list Character.t) : list Character.t :=
  (λ char, if decide (Character.id char = id) then updated else char) <$> prev.

(** [None] only for a slot array with fewer than two entries (see
    [adjustSlots]); otherwise the state after the handler has run and
    the effects it had, in order. *)
Definition updateSpellSlot (w : world) (lvl : Z) (type : slotField) (delta : Z)
    (st : state) : option (state * list event) :=
  match selectedCharacter st with
  | None => Some (st, [])
  | Some sel =>
      match session w with
      | SessionThrows =>
          Some (st, [ConsoleError "Error updating spell slot:";
                     Alert "Erro" "Erro ao atualizar espaços de magia."])
      | NoSession =>
          Some (st, [Alert "Erro" "Você precisa estar autenticado."])
      | Session access_token =>
          let currentSlots := default ∅ (Character.spell_slots (character sel)) in
          match currentSlots !! lvl with
          | Some (Character.SlotArray arr) =>
              slots ← adjustSlots type delta arr;
              let currentSlots := <[lvl := Character.SlotArray slots]> currentSlots in
              let req := slotsRequest (character sel) access_token currentSlots in
              match put w req with
              | Response true (Some updatedCharacter) =>
                  let st :=
                    setCharacters
                      (replaceCharacter (Character.id (character sel))
                         updatedCharacter (characters st)) st in
                  let st :=
                    setSelectedCharacter
                      (Some (prepareCharacterSpells (allSpells st) updatedCharacter))
                      st in
                  Some (st, [Sent req])
              | Response false _ =>
                  Some (st, [Sent req;
                             Alert "Erro"
                               "Não foi possível atualizar os espaços de magia."])
              | Response true None | NetworkError =>
                  Some (st, [Sent req;
                             ConsoleError "Error updating spell slot:";
                             Alert "Erro" "Erro ao atualizar espaços de magia."])
              end
          | _ => Some (st, [])
          end
      end
  end.
End Component.

Definition setLoading (b : bool) (st : state) : state :=
  {| characters := characters st; selectedCharacter := selectedCharacter st;
     loading := b; refreshing := refreshing st; allSpells := allSpells st |}.

Definition setRefreshing (b : bool) (st : state) : state :=
  {| characters := characters st; selectedCharacter := selectedCharacter st;
     loading := loading st; refreshing := b; allSpells := allSpells st |}.

Definition setAllSpells (spells : list Spell.t) (st : state) : state :=
  {| characters := characters st; selectedCharacter := selectedCharacter st;
     loading := loading st; refreshing := refreshing st; allSpells := spells |}.

(** The answers given to one run of [loadCharacters]. *)
Record loadWorld := {
  load_session : sessionResult;
  load_get : request → fetchResult (list Character.t)
}.

Section Loading.
Context (classesData : list DnDClass.t).

(** [classesData.find(cls => cls.name === char.class_name)?.spellcasting] *)
Definition isSpellcaster (char : Character.t) : bool :=
  match List.find
          (λ cls, bool_decide (DnDClass.name cls = Some (Character.class_name char)))
          classesData with
  | Some cls => DnDClass.spellcasting cls
  | None => false
  end.

Definition loadCharacters (w : loadWorld) (st : state) : state * list event :=
  match load_session w with
  | SessionThrows => (st, [ConsoleError "Error loading characters:"])
  | NoSession => (setLoading false st, [])
  | Session access_token =>
      let req :=
        {| url := "/api/characters"; meth := GET;
           authorization := bearer access_token; payload := NoBody |} in
      match load_get w req with
      | Response true (Some charactersData) =>
          (setCharacters (List.filter isSpellcaster charactersData) st, [Sent req])
      | Response false _ => (st, [Sent req])
      | Response true None | NetworkError =>
          (st, [Sent req; ConsoleError "Error loading characters:"])
      end
  end.

(** [spellsData] is the content of [@/data/spells.json]. *)
Definition loadData (spellsData : list Spell.t) (w : loadWorld) (st : state)
    : state * list event :=
  let st := setAllSpells spellsData st in
  let '(st, evs) := loadCharacters w st in
  (setRefreshing false (setLoading false st), evs).

Definition handleRefresh (spellsData : list Spell.t) (w : loadWorld) (st : state)
    : state * list event :=
  loadData spellsData w (setRefreshing true st).
End Loading.

(** The two figures on a character's card. *)
Definition spellCount (character : Character.t) : nat :=
  match Character.spells_known character with
  | Some known => length known
  | None => 0%nat
  end.

(** One turn of the [reduce] in [totalSlots]; [None] is [NaN], which an
    array without a second entry brings in and no later turn removes. *)
Definition addSlots (total : option Z) (slots : Character.slotValue) : option Z :=
  match total, slots with
  | Some t, Character.SlotArray (_ :: m :: _) => Some (t + m)
  | Some t, Character.SlotOther => Some (t + 0)
  | _, _ => None
  end.

Definition totalSlots (character : Character.t) : option Z :=
  foldl addSlots (Some 0)
    (snd <$> map_to_list (default ∅ (Character.spell_slots character))).

(** The sections of the detail view: for each level from 0 to 9 that has
    spells, the level and its spells. *)
Definition spellSections (sel : CharacterSpells) : list (Z * list Spell.t) :=
  omap (λ lvl,
          let spellsAtLevel := default [] (spellsByLevel sel !! lvl) in
          if decide (length spellsAtLevel = 0%nat) then None
          else Some (lvl, spellsAtLevel))
       [0; 1; 2; 3; 4; 5; 6; 7; 8; 9].
End GrimoireTab.

(** ** CharactersTab *)

Module CharactersTab.
Import Remote.

Record User := { user_id : string }.

Record state := {
  characters : list Character.t;
  selectedCharacter : option Character.t;
  spellSelectionCharacter : option Character.t;
  loading : bool;
  refreshing : bool;
  user : option User
}.

Definition setCharacters (cs : list Character.t) (st : state) : state :=
  {| characters := cs; selectedCharacter := selectedCharacter st;
     spellSelectionCharacter := spellSelectionCharacter st;
     loading := loading st; refreshing := refreshing st; user := user st |}.

Definition setSelectedCharacter (c : option Character.t) (st : state) : state :=
  {| characters := characters st; selectedCharacter := c;
     spellSelectionCharacter := spellSelectionCharacter st;
     loading := loading st; refreshing := refreshing st; user := user st |}.

Definition setSpellSelectionCharacter (c : option Character.t) (st : state) : state :=
  {| characters := characters st; selectedCharacter := selectedCharacter st;
     spellSelectionCharacter := c;
     loading := loading st; refreshing := refreshing st; user := user st |}.

Definition setLoading (b : bool) (st : state) : state :=
  {| characters := characters st; selectedCharacter := selectedCharacter st;
     spellSelectionCharacter := spellSelectionCharacter st;
     loading := b; refreshing := refreshing st; user := user st |}.

Definition setRefreshing (b : bool) (st : state) : state :=
  {| characters := characters st; selectedCharacter := selectedCharacter st;
     spellSelectionCharacter := spellSelectionCharacter st;
     loading := loading st; refreshing := b; user := user st |}.

(** The answers given to one run of [loadCharacters]. *)
Record loadWorld := {
  load_session : sessionResult;
  load_get : request → fetchResult (list Character.t)
}.

(** What awaiting the store's delete query gives: a thrown error, or a
    result object with its [error] field. *)
Inductive deleteResult :=
| DeleteThrows
| Deleted (error : option string).

(** A response-like value, as the deletion flow reads it. *)
Record responseLike := { ok : bool }.

(** The answers given to one run of a handler.  [globalThis] holds the
    response-like properties of the global object, which is where an
    identifier without a declaration in scope is looked up. *)
Record world := {
  platform_web : bool;
  session : sessionResult;
  delete_character : string → string → deleteResult;
  put : request → fetchResult Character.t;
  globalThis : gmap string responseLike;
  reload : loadWorld
}.

(** [alert] on the web, [Alert.alert] elsewhere. *)
Definition notify (web : bool) (title message : string) : event :=
  if web then WebAlert (title +:+ ": " +:+ message) else Alert title message.

(** [snap] is the state the closure was created in (what the handler
    reads as [selectedCharacter]); [st] is the state the setters act on. *)
Definition loadCharacters (w : loadWorld) (snap st : state) : state * list event :=
  let finally st := setRefreshing false (setLoading false st) in
  match load_session w with
  | SessionThrows => (finally st, [ConsoleError "Error loading characters:"])
  | NoSession => (finally (setLoading false st), [])
  | Session access_token =>
      let req :=
        {| url := "/api/characters"; meth := GET;
           authorization := bearer access_token; payload := NoBody |} in
      match load_get w req with
      | Response true (Some charactersData) =>
          let st := setCharacters charactersData st in
          let st :=
            match selectedCharacter snap with
            | Some sel =>
                setSelectedCharacter
                  (List.find
                     (λ char, bool_decide (Character.id char = Character.id sel))
                     charactersData) st
            | None => st
            end in
          (finally st, [Sent req])
      | Response false _ =>
          (finally st, [Sent req; ConsoleError "Failed to load characters"])
      | Response true None | NetworkError =>
          (finally st, [Sent req; ConsoleError "Error loading characters:"])
      end
  end.

(** The identifiers with a declaration in scope in the body of
    [handleDeleteCharacter]: its parameter and locals, the component's
    state, setters and functions, and the module's imports. *)
Definition declared_in_handleDeleteCharacter : list string :=
  [ "characterId"; "session"; "error"; "message"; "errorText"; "updated"; "prev";
    "char";
    "characters"; "setCharacters"; "selectedCharacter"; "setSelectedCharacter";
    "spellSelectionCharacter"; "setSpellSelectionCharacter";
    "loading"; "setLoading"; "refreshing"; "setRefreshing"; "user"; "setUser";
    "checkUser"; "loadCharacters"; "handleRefresh"; "handleDeleteCharacter";
    "handleGenerateToken"; "handleRevokeToken"; "handleAddSpellsToGrimoire";
    "openSpellSelection"; "createSampleCharacter"; "navigateToClasses";
    "navigateToCreateCharacter";
    "React"; "useState"; "useEffect"; "useCallback";
    "View"; "Text"; "StyleSheet"; "SafeAreaView"; "ScrollView";
    "TouchableOpacity"; "Alert"; "Platform";
    "Character"; "Spell"; "DnDClass"; "CharacterCard"; "CharacterDetailModal";
    "SpellSelectionModal"; "supabase";
    "Shield"; "User"; "Plus"; "RefreshCw"; "Users"; "UserPlus"; "BookOpen";
    "router"; "useFocusEffect"; "classesData"; "CharactersTab"; "styles" ].

Definition sameId (c : option Character.t) (characterId : string) : bool :=
  match c with
  | Some c => bool_decide (Character.id c = characterId)
  | None => false
  end.

Definition unexpectedDeleteError (web : bool) : list event :=
  [ConsoleError "Error deleting character:";
   notify web "Erro" "Erro inesperado ao excluir personagem."].

Definition handleDeleteCharacter (w : world) (characterId : string) (st : state)
    : state * list event :=
  let web := platform_web w in
  match session w with
  | SessionThrows => (st, unexpectedDeleteError web)
  | NoSession =>
      (st, [notify web "Erro"
              "Você precisa estar autenticado para excluir personagens."])
  | Session _ =>
      match user st with
      | None => (st, unexpectedDeleteError web)
      | Some u =>
          match delete_character w characterId (user_id u) with
          | DeleteThrows => (st, unexpectedDeleteError web)
          | Deleted (Some error) =>
              (st, [ConsoleError "Erro ao deletar personagem:";
                    Alert "Erro" "Não foi possível excluir o personagem."])
          | Deleted None =>
              (* [response] has no declaration in scope *)
              match globalThis w !! "response" with
              | None => (st, unexpectedDeleteError web)
              | Some response =>
                  if ok response then
                    let st1 :=
                      setCharacters
                        (List.filter
                           (λ char, negb (bool_decide (Character.id char = characterId)))
                           (characters st)) st in
                    let st2 :=
                      if sameId (selectedCharacter st) characterId
                      then setSelectedCharacter None st1 else st1 in
                    let st3 :=
                      if sameId (spellSelectionCharacter st) characterId
                      then setSpellSelectionCharacter None st2 else st2 in
                    let '(st4, evs) := loadCharacters (reload w) st st3 in
                    (st4, notify web "Sucesso" "Personagem excluído com sucesso!" :: evs)
                  else
                    (st, [ConsoleError "Failed to delete character:";
                          notify web "Erro"
                            "Não foi possível excluir o personagem. Tente novamente."])
              end
          end
      end
  end.

Definition handleAddSpellsToGrimoire (w : world) (spells : list Spell.t) (st : state)
    : state * list event :=
  let web := platform_web w in
  match spellSelectionCharacter st with
  | None => (st, [notify web "Erro" "Nenhum personagem selecionado."])
  | Some target =>
      let failed :=
        [ConsoleError "Error adding spells to grimoire:";
         notify web "Erro" "Erro ao adicionar magias ao grimório."] in
      match session w with
      | SessionThrows => (st, failed)
      | NoSession => (st, [notify web "Erro" "Você precisa estar autenticado."])
      | Session access_token =>
          let currentSpells := default [] (Character.spells_known target) in
          let currentSpellNames := Character.knownSpellName <$> currentSpells in
          let newSpells :=
            List.filter
              (λ spell, negb (bool_decide (Spell.name spell ∈ currentSpellNames)))
              spells in
          match newSpells with
          | [] =>
              (st, [notify web "Aviso"
                      "Todas as magias selecionadas já estão no grimório do personagem."])
          | _ =>
              let spellsToAdd :=
                (λ spell, Character.KnownObject (Spell.name spell) (Spell.level spell))
                  <$> newSpells in
              let updatedSpells := currentSpells ++ spellsToAdd in
              let req :=
                {| url := "/api/characters/" +:+ Character.id target;
                   meth := PUT;
                   authorization := bearer access_token;
                   payload := SpellsKnownBody updatedSpells |} in
              match put w req with
              | Response true (Some updatedCharacter) =>
                  let st1 :=
                    setCharacters
                      ((λ char,
                          if decide (Character.id char = Character.id target)
                          then updatedCharacter else char) <$> characters st) st in
                  let st2 :=
                    if sameId (selectedCharacter st) (Character.id target)
                    then setSelectedCharacter (Some updatedCharacter) st1 else st1 in
                  let st3 := setSpellSelectionCharacter (Some updatedCharacter) st2 in
                  let message :=
                    pretty (length newSpells) +:+
                    " magia(s) adicionada(s) ao grimório de " +:+
                    Character.name target +:+ "!" in
                  let '(st4, evs) := loadCharacters (reload w) st st3 in
                  (st4, Sent req :: notify web "Sucesso" message :: evs)
              | Response false _ =>
                  (st, [Sent req;
                        ConsoleError "Error updating character:";
                        notify web "Erro"
                          "Não foi possível adicionar as magias ao grimório."])
              | Response true None | NetworkError => (st, Sent req :: failed)
              end
          end
      end
  end.
Definition handleRefresh (w : loadWorld) (st : state) : state * list event :=
  loadCharacters w st (setRefreshing true st).

Definition openSpellSelection (character : Character.t) (st : state) : state :=
  setSpellSelectionCharacter (Some character) st.
End CharactersTab.

(** ** CharactersTab as in [app/(tabs)/characters.tsx] *)

(** The second version of the screen has the same state; its
    [loadCharacters] differs in the texts it logs, and its deletion flow
    has no stray reference. *)
Module CharactersScreen.
Import Remote.
Import CharactersTab.

Definition loadCharacters (w : loadWorld) (snap st : state) : state * list event :=
  let finally st := setRefreshing false (setLoading false st) in
  match load_session w with
  | SessionThrows => (finally st, [ConsoleError "Erro ao carregar personagens:"])
  | NoSession => (finally (setLoading false st), [])
  | Session access_token =>
      let req :=
        {| url := "/api/characters"; meth := GET;
           authorization := bearer access_token; payload := NoBody |} in
      match load_get w req with
      | Response true (Some charactersData) =>
          let st := setCharacters charactersData st in
          let st :=
            match selectedCharacter snap with
            | Some sel =>
                setSelectedCharacter
                  (List.find
                     (λ char, bool_decide (Character.id char = Character.id sel))
                     charactersData) st
            | None => st
            end in
          (finally st, [Sent req])
      | Response false _ =>
          (finally st, [Sent req; ConsoleError "Falha ao carregar personagens"])
      | Response true None | NetworkError =>
          (finally st, [Sent req; ConsoleError "Erro ao carregar personagens:"])
      end
  end.

Definition handleDeleteCharacter (w : world) (characterId : string) (st : state)
    : state * list event :=
  let web := platform_web w in
  let unexpected :=
    [ConsoleError "Erro inesperado ao excluir personagem:";
     notify web "Erro" "Erro inesperado ao excluir personagem."] in
  let unauthenticated :=
    [notify web "Erro" "Você precisa estar autenticado para excluir personagens."] in
  match session w with
  | SessionThrows => (st, unexpected)
  | NoSession => (st, unauthenticated)
  | Session _ =>
      match user st with
      | None => (st, unauthenticated)
      | Some u =>
          match delete_character w characterId (user_id u) with
          | DeleteThrows => (st, unexpected)
          | Deleted (Some error) =>
              (st, [ConsoleError "Erro ao deletar personagem:";
                    notify web "Erro" "Não foi possível excluir o personagem."])
          | Deleted None =>
              let st1 :=
                setCharacters
                  (List.filter
                     (λ c, negb (bool_decide (Character.id c = characterId)))
                     (characters st)) st in
              let st2 :=
                if sameId (selectedCharacter st) characterId
                then setSelectedCharacter None st1 else st1 in
              let st3 :=
                if sameId (spellSelectionCharacter st) characterId
                then setSpellSelectionCharacter None st2 else st2 in
              let '(st4, evs) := loadCharacters (reload w) st st3 in
              (st4, notify web "Sucesso" "Personagem excluído com sucesso!" :: evs)
          end
      end
  end.
End CharactersScreen.

(** * Specification vocabulary *)

(** The statements below are phrased with these predicates. *)

Section Vocabulary.
Context `{JsStrings}.

(** The class's name is in the spell's class list, comparing the
    trimmed, lower-cased entry with the lower-cased class name. *)
Definition eligibleByClass (c : DnDClass.t) (spell : Spell.t) : Prop :=
  ∃ className cl entry,
    DnDClass.name c = Some className ∧
    Spell.classes spell = Some cl ∧
    entry ∈ cl ∧
    toLowerCase (trim entry) = toLowerCase className.

(** The name a subclass descriptor carries, if any. *)
Definition subclassName (e : DnDClass.subclass) : option string :=
  match e with
  | DnDClass.SubName s => Some s
  | DnDClass.SubObject n => n
  | DnDClass.SubNull => None
  end.

(** The spell's subclass list and the class's subclass list have a
    name in common, comparing lower-cased names. *)
Definition sharesSubclass (c : DnDClass.t) (spell : Spell.t) : Prop :=
  ∃ sl cl subclass e n,
    Spell.subclasses spell = Some sl ∧
    DnDClass.subclasses c = Some cl ∧
    subclass ∈ sl ∧ e ∈ cl ∧
    subclassName e = Some n ∧
    toLowerCase n = toLowerCase subclass.

(** The query is a case-insensitive substring of the spell's name; the
    empty query asks for nothing. *)
Definition nameContains (query : string) (spell : Spell.t) : Prop :=
  query = "" ∨
  includes (toLowerCase (Spell.name spell)) (toLowerCase query) = true.

(** The spell's school, trimmed, equals the selected school up to case;
    no selection (or an empty one) asks for nothing. *)
Definition schoolIs (selected : option string) (spell : Spell.t) : Prop :=
  match selected with
  | Some sch =>
      sch ≠ "" →
      Spell.school spell ≠ "" ∧
      toLowerCase (trim (Spell.school spell)) = toLowerCase sch
  | None => True
  end.
End Vocabulary.

(** The presentation as the contract words it: going through the spells
    in order, a header whenever the level differs from the previous
    spell's level (the first spell has no previous one), then the spell
    itself when its level is expanded. *)
Fixpoint presentation (previous : option Z) (expanded : gset Z)
    (spells : list Spell.t) : list SpellSelectionModal.SpellListItem :=
  match spells with
  | [] => []
  | spell :: rest =>
      (if decide (previous = Some (Spell.level spell)) then []
       else [SpellSelectionModal.Header (Spell.level spell)
               ("header-" +:+ pretty (Spell.level spell))]) ++
      (if decide (Spell.level spell ∈ expanded)
       then [SpellSelectionModal.SpellRow spell (Spell.id spell)] else []) ++
      presentation (Some (Spell.level spell)) expanded rest
  end.

Definition headerLevels (items : list SpellSelectionModal.SpellListItem) : list Z :=
  omap (λ item, match item with
                | SpellSelectionModal.Header l _ => Some l
                | SpellSelectionModal.SpellRow _ _ => None
                end) items.

Definition rowSpells (items : list SpellSelectionModal.SpellListItem) : list Spell.t :=
  omap (λ item, match item with
                | SpellSelectionModal.Header _ _ => None
                | SpellSelectionModal.SpellRow spell _ => Some spell
                end) items.

(** Clamping as the contract uses the word: [x] brought into the range
    from [lo] to [hi]. *)
Definition clamp (x lo hi : Z) : Z :=
  if decide (x < lo) then lo else if decide (hi < x) then hi else x.

(** Modelled from the spec: the remote character store's update
    operation, whose code is not part of the sources ("update one
    (partial, e.g. spell_slots or spells_known field)").  It replaces the
    one field named in the request body and answers with the stored
    character. *)
Definition applyUpdate (stored : Character.t) (b : Remote.body) : Character.t :=
  match b with
  | Remote.NoBody => stored
  | Remote.SpellSlotsBody slots =>
      Character.mk (Character.id stored) (Character.name stored)
        (Character.class_name stored) (Character.level stored)
        (Character.hp_current stored) (Character.hp_max stored)
        (Some slots) (Character.spells_known stored)
  | Remote.SpellsKnownBody known =>
      Character.mk (Character.id stored) (Character.name stored)
        (Character.class_name stored) (Character.level stored)
        (Character.hp_current stored) (Character.hp_max stored)
        (Character.spell_slots stored) (Some known)
  end.

(** The grimoire's state after a successful response carrying [updated]:
    the character list and the detail view both take the returned value. *)
Definition refreshed `{JsStrings} (classesData : list DnDClass.t)
    (sel : GrimoireTab.CharacterSpells) (updated : Character.t)
    (st : GrimoireTab.state) : GrimoireTab.state :=
  GrimoireTab.setSelectedCharacter
    (Some (GrimoireTab.prepareCharacterSpells classesData (GrimoireTab.allSpells st) updated))
    (GrimoireTab.setCharacters
       (GrimoireTab.replaceCharacter (Character.id (GrimoireTab.character sel)) updated
          (GrimoireTab.characters st)) st).

(** The spells of one level, in the order they come. *)
Definition levelGroup (lvl : Z) (spells : list Spell.t) : list Spell.t :=
  List.filter (λ spell, bool_decide (Spell.level spell = lvl)) spells.

(** The sum of the max values of a slot list. *)
Definition sumMax (infos : list GrimoireTab.SpellSlotInfo) : Z :=
  foldr (λ info total, GrimoireTab.max info + total) 0 infos.

(** The messages among a handler's effects. *)
Definition isMessage (e : Remote.event) : bool :=
  match e with
  | Remote.Alert _ _ | Remote.WebAlert _ => true
  | Remote.ConsoleError _ | Remote.Sent _ => false
  end.

Definition messages (evs : list Remote.event) : list Remote.event :=
  List.filter isMessage evs.

(** * Sample data *)

Module Sample.
Definition spell (id name : string) (level : Z) (school : string) : Spell.t :=
  Spell.mk id name level school "1 action" "Self" (Some ["Wizard"]) None.

Definition fireball : Spell.t := spell "s1" "Fireball" 3 "Evocation".
(** [light] is stored with a blank in front of its school. *)
Definition light : Spell.t := spell "s2" "Light" 0 " Evocation".
Definition shield : Spell.t := spell "s3" "Shield" 1 "Abjuration".
Definition catalog : list Spell.t := [fireball; light; shield].

Definition wizard : DnDClass.t :=
  DnDClass.mk (Some "wizard") (Some [DnDClass.SubName "Evoker"]) true.

Definition sources : SpellSelectionModal.sources :=
  {| SpellSelectionModal.platform_web := false;
     SpellSelectionModal.customSpells := SpellSelectionModal.NoItem;
     SpellSelectionModal.defaultSpells := catalog;
     SpellSelectionModal.adaptedSpells := None |}.

Definition gandalf : Character.t :=
  Character.mk "c1" "Gandalf" "wizard" 10 68 78
    (Some (<[1 := Character.SlotArray [4; 4]]>
             (<[2 := Character.SlotArray [1; 3]]> ∅)))
    (Some [Character.KnownName "Fireball"; Character.KnownName "Unknown Spell"]).

(** A character whose stored maximum for level 1 is negative. *)
Definition cursed : Character.t :=
  Character.mk "c2" "Cursed" "wizard" 1 5 5
    (Some (<[1 := Character.SlotArray [0; -1]]> ∅)) None.

(** A store that holds [stored] and applies every update to it. *)
Definition store (stored : Character.t) (req : Remote.request)
    : Remote.fetchResult Character.t :=
  Remote.Response true (Some (applyUpdate stored (Remote.payload req))).


Definition grimoire (c : Character.t) : GrimoireTab.state :=
  {| GrimoireTab.characters := [c];
     GrimoireTab.selectedCharacter :=
       Some (GrimoireTab.prepareCharacterSpells [wizard] catalog c);
     GrimoireTab.loading := false;
     GrimoireTab.refreshing := false;
     GrimoireTab.allSpells := catalog |}.

Definition online (c : Character.t) : GrimoireTab.world :=
  {| GrimoireTab.session := Remote.Session "token";
     GrimoireTab.put := store c |}.


(** A second catalog entry under the name of [fireball]. *)
Definition fireball_variant : Spell.t := spell "s9" "Fireball" 3 "Evocation".

(** A character who already knows Fireball. *)
Definition apprentice : Character.t :=
  Character.mk "c3" "Apprentice" "wizard" 3 12 12 None
    (Some [Character.KnownName "Fireball"]).

(** A character who knows no spell yet. *)
Definition novice : Character.t :=
  Character.mk "c4" "Novice" "wizard" 1 6 6 None None.

Definition roster (c : Character.t) : CharactersTab.state :=
  {| CharactersTab.characters := [c];
     CharactersTab.selectedCharacter := None;
     CharactersTab.spellSelectionCharacter := Some c;
     CharactersTab.loading := false;
     CharactersTab.refreshing := false;
     CharactersTab.user := Some {| CharactersTab.user_id := "u1" |} |}.

(** A world with a session in which the store applies updates to [c],
    deletes without error, lists no character afterwards, and whose
    global object has no [response] property. *)
Definition tabWorld (c : Character.t) : CharactersTab.world :=
  {| CharactersTab.platform_web := false;
     CharactersTab.session := Remote.Session "token";
     CharactersTab.delete_character := λ _ _, CharactersTab.Deleted None;
     CharactersTab.put := store c;
     CharactersTab.globalThis := ∅;
     CharactersTab.reload :=
       {| CharactersTab.load_session := Remote.Session "token";
          CharactersTab.load_get := λ _, Remote.Response true (Some []) |} |}.


(** The selection modal with Fireball and Shield ticked. *)
Definition ticked : SpellSelectionModal.state :=
  SpellSelectionModal.setSelectedSpells {["s1"; "s3"]} SpellSelectionModal.initial.




Definition tabLoad (fetched : list Character.t) : CharactersTab.loadWorld :=
  {| CharactersTab.load_session := Remote.Session "token";
     CharactersTab.load_get := λ _, Remote.Response true (Some fetched) |}.

(** A catalog entry of a level the detail view has no section for. *)
Definition wish : Spell.t := spell "s10" "Wish" 10 "Conjuration".

Definition archmage : Character.t :=
  Character.mk "c6" "Archmage" "wizard" 20 90 90
    (Some (<[1 := Character.SlotArray [2; 4]]>
             (<[3 := Character.SlotArray [1; 2]]>
                (<[9 := Character.SlotOther]> ∅))))
    (Some [Character.KnownName "Wish"; Character.KnownName "Fireball"]).
End Sample.

(** * Properties *)

(** ** The sort *)

Section ArraySortFacts.
Context {A : Type} (cmp : A → A → Z).

Lemma sort_insert_perm x l : sort_insert cmp x l ≡ₚ x :: l.
Proof.
  induction l as [|y l IH]; simpl; [done|].
  case_decide; [done|].
  rewrite IH. apply Permutation_swap.
Qed.

Lemma array_sort_perm l : array_sort cmp l ≡ₚ l.
Proof.
  induction l as [|x l IH]; simpl; [done|].
  rewrite sort_insert_perm. by constructor.
Qed.

Lemma elem_of_array_sort x l : x ∈ array_sort cmp l ↔ x ∈ l.
Proof. by rewrite array_sort_perm. Qed.

(** Sortedness needs only that the comparator never says "after" in
    both directions. *)
Hypothesis cmp_total : ∀ a b, 0 < cmp a b → cmp b a ≤ 0.

Lemma sort_insert_sorted x l :
  Sorted (λ a b, cmp a b ≤ 0) l → Sorted (λ a b, cmp a b ≤ 0) (sort_insert cmp x l).
Proof.
  induction 1 as [|y l Hl IH Hhd]; simpl.
  - repeat constructor.
  - case_decide as Hxy.
    + constructor; [by constructor|by constructor].
    + constructor; [done|].
      destruct Hhd as [|z l' Hyz]; simpl.
      * constructor. apply cmp_total. lia.
      * case_decide; constructor; [apply cmp_total; lia|done].
Qed.

Lemma array_sort_sorted l : Sorted (λ a b, cmp a b ≤ 0) (array_sort cmp l).
Proof.
  induction l as [|x l IH]; simpl; [constructor|].
  by apply sort_insert_sorted.
Qed.
End ArraySortFacts.

Lemma Sorted_weaken {A} (R1 R2 : A → A → Prop) l :
  (∀ a b, R1 a b → R2 a b) → Sorted R1 l → Sorted R2 l.
Proof.
  intros HR. induction 1 as [|x l Hl IH Hhd]; constructor; [done|].
  destruct Hhd; constructor; auto.
Qed.

(** Sorting by a key that tells the elements apart gives the same array
    whatever order the elements came in. *)
Lemma array_sort_any_order {A} (key : A → Z) (l1 l2 : list A) :
  l1 ≡ₚ l2 →
  (∀ x y, x ∈ l1 → y ∈ l1 → key x = key y → x = y) →
  array_sort (λ a b, key a - key b) l1 = array_sort (λ a b, key a - key b) l2.
Proof.
  intros Hperm Hkey.
  assert (Hsorted : ∀ l, Sorted (λ a b, key a ≤ key b)
                           (array_sort (λ a b, key a - key b) l)).
  { intros l. eapply Sorted_weaken; [|apply array_sort_sorted]; simpl; intros; lia. }
  assert (Htrans : Transitive (λ a b : A, key a ≤ key b)) by (intros ???; lia).
  apply (Sorted_unique_strong (λ a b, key a ≤ key b)); [|done|done|].
  - intros x1 x2 Hx1%elem_of_array_sort Hx2%elem_of_array_sort ??.
    apply Hkey; [done|by rewrite Hperm|lia].
  - by rewrite !array_sort_perm.
Qed.

Lemma truthy_true s : truthy s = true ↔ s ≠ "".
Proof.
  unfold truthy. rewrite negb_true_iff, bool_decide_eq_false. done.
Qed.

Lemma truthy_false s : truthy s = false ↔ s = "".
Proof.
  unfold truthy. rewrite negb_false_iff, bool_decide_eq_true. done.
Qed.

(** ** Catalog loader *)

Section CatalogLoader.
Context `{JsStrings}.
Import SpellSelectionModal.

Lemma isClassSpell_true c className spell :
  DnDClass.name c = Some className →
  isClassSpell className spell = true → eligibleByClass c spell.
Proof.
  intros Hname. unfold isClassSpell.
  destruct (Spell.classes spell) as [cl|] eqn:Hcl; [|done].
  intros (entry & Hin & Hentry)%existsb_exists.
  apply andb_true_iff in Hentry as [_ Heq%bool_decide_eq_true].
  exists className, cl, entry. by rewrite list_elem_of_In.
Qed.

Lemma subclassMatches_true subclass e :
  subclassMatches subclass e = true →
  ∃ n, subclassName e = Some n ∧ toLowerCase n = toLowerCase subclass.
Proof.
  destruct e as [s|[n|]|]; simpl; try done.
  - intros ?%bool_decide_eq_true. eauto.
  - intros [_ ?%bool_decide_eq_true]%andb_true_iff. eauto.
Qed.

Lemma isSubclassSpell_true c spell :
  isSubclassSpell c spell = true → sharesSubclass c spell.
Proof.
  unfold isSubclassSpell.
  destruct (Spell.subclasses spell) as [sl|] eqn:Hsl; [|done].
  destruct (DnDClass.subclasses c) as [cl|] eqn:Hcl; [|done].
  intros (subclass & Hsub & (e & He & Hm)%existsb_exists)%existsb_exists.
  apply subclassMatches_true in Hm as (n & Hn & Heq).
  exists sl, cl, subclass, e, n. by rewrite !list_elem_of_In.
Qed.

(** C5. Every spell the catalog loader returns for a class has the
    class's name in its class list (entry trimmed, both sides
    lower-cased) or has a subclass in common with the class (names
    lower-cased; class subclass entries are bare names or named
    objects); with no class, or a class without a name, the loader
    returns the empty list. *)
Theorem classSpells_eligible (src : sources) (c : DnDClass.t) (spell : Spell.t) :
  classSpells src None = [] ∧
  (DnDClass.name c = None ∨ DnDClass.name c = Some "" → classSpells src (Some c) = []) ∧
  (spell ∈ classSpells src (Some c) →
   eligibleByClass c spell ∨ sharesSubclass c spell).
Proof.
  split; [done|]. split.
  - intros [Hn|Hn]; simpl; by rewrite Hn.
  - simpl. destruct (DnDClass.name c) as [className|] eqn:Hname;
      [|by intros ?%elem_of_nil].
    destruct (truthy className); [|by intros ?%elem_of_nil].
    destruct (spellsData src) as [data|]; [|by intros ?%elem_of_nil].
    rewrite list_elem_of_In, filter_In. intros [_ Hok].
    apply orb_true_iff in Hok as [Hok|Hok].
    + left. by eapply isClassSpell_true.
    + right. by apply isSubclassSpell_true.
Qed.
End CatalogLoader.

Lemma classSpells_eligible_witness :
  Sample.fireball ∈ SpellSelectionModal.classSpells Sample.sources (Some Sample.wizard) ∧
  (eligibleByClass Sample.wizard Sample.fireball ∨
   sharesSubclass Sample.wizard Sample.fireball).
Proof.
  assert (Hin : Sample.fireball ∈
                SpellSelectionModal.classSpells Sample.sources (Some Sample.wizard)).
  { apply list_elem_of_In. vm_compute. left. reflexivity. }
  split; [exact Hin|].
  exact (proj2 (proj2 (classSpells_eligible Sample.sources Sample.wizard Sample.fireball)) Hin).
Defined.

(** ** Filter and sort *)

Section FilterSort.
Context `{JsStrings}.
Import SpellSelectionModal.

Lemma matchesSearch_true query spell :
  matchesSearch query spell = true ↔ nameContains query spell.
Proof.
  unfold matchesSearch, nameContains.
  rewrite orb_true_iff, negb_true_iff, truthy_false. done.
Qed.

Lemma matchesSchool_true selected spell :
  matchesSchool selected spell = true ↔ schoolIs selected spell.
Proof.
  unfold matchesSchool, schoolIs. destruct selected as [sch|]; [|done].
  destruct (truthy sch) eqn:Hsch.
  - apply truthy_true in Hsch.
    rewrite andb_true_iff, truthy_true, bool_decide_eq_true. naive_solver.
  - apply truthy_false in Hsch. naive_solver.
Qed.

Lemma compareSpells_total a b : 0 < compareSpells a b → compareSpells b a ≤ 0.
Proof.
  unfold compareSpells. repeat case_decide; try lia.
  apply localeCompare_total.
Qed.

Lemma compareSpells_level a b : compareSpells a b ≤ 0 → Spell.level a ≤ Spell.level b.
Proof. unfold compareSpells. case_decide; lia. Qed.

(** The result is ordered by level (and by name within a level). *)
Lemma filteredAndSortedSpells_sorted catalog query selected :
  Sorted (λ a b, Spell.level a ≤ Spell.level b)
    (filteredAndSortedSpells catalog query selected).
Proof.
  eapply Sorted_weaken; [apply compareSpells_level|].
  apply array_sort_sorted, compareSpells_total.
Qed.

Lemma filteredAndSortedSpells_perm catalog query selected :
  filteredAndSortedSpells catalog query selected ≡ₚ
  List.filter (λ spell, matchesSearch query spell && matchesSchool selected spell)
    catalog.
Proof. apply array_sort_perm. Qed.

(** C7 (amended). The filtered result contains exactly the catalog
    spells whose name contains the query as a case-insensitive
    substring and, when a non-empty school is selected, whose school is
    non-empty and equals the selection once trimmed and lower-cased; an
    empty query or no school imposes no constraint. *)
Theorem filteredAndSortedSpells_exact (catalog : list Spell.t) (query : string)
    (selected : option string) (spell : Spell.t) :
  spell ∈ filteredAndSortedSpells catalog query selected ↔
  spell ∈ catalog ∧ nameContains query spell ∧ schoolIs selected spell.
Proof.
  unfold filteredAndSortedSpells.
  rewrite elem_of_array_sort, !list_elem_of_In, filter_In, andb_true_iff.
  by rewrite matchesSearch_true, matchesSchool_true.
Qed.
End FilterSort.

(** The contract's scenario: of Fireball, Light and Shield, the query
    "li" keeps Light alone. *)
Lemma filteredAndSortedSpells_scenario :
  SpellSelectionModal.filteredAndSortedSpells Sample.catalog "li" None = [Sample.light].
Proof. reflexivity. Qed.

(** C7 as stated fails: the school comparison trims the spell's school
    first, so a spell whose stored school is [" Evocation"] is returned
    for the selection ["Evocation"] although the two differ by more than
    case. *)
Lemma filteredAndSortedSpells_school_trimmed :
  Sample.light ∈ SpellSelectionModal.filteredAndSortedSpells [Sample.light] "" (Some "Evocation") ∧
  toLowerCase (Spell.school Sample.light) ≠ toLowerCase "Evocation".
Proof.
  split.
  - apply list_elem_of_In. vm_compute. left. reflexivity.
  - vm_compute. discriminate.
Qed.

(** ** Grouping and presentation *)

Section Presentation.
Import SpellSelectionModal.
Implicit Types (spells : list Spell.t) (expanded : gset Z).

Lemma listItems_step_eq expanded currentLevel items spell :
  listItems_step expanded (currentLevel, items) spell =
  (Spell.level spell,
   items ++
   (if decide (Some currentLevel = Some (Spell.level spell)) then []
    else [Header (Spell.level spell) ("header-" +:+ pretty (Spell.level spell))]) ++
   (if decide (Spell.level spell ∈ expanded)
    then [SpellRow spell (Spell.id spell)] else [])).
Proof.
  unfold listItems_step.
  destruct (decide (Spell.level spell = currentLevel)) as [<-|Hne].
  - rewrite (decide_False (P:=Spell.level spell ≠ Spell.level spell)) by auto.
    rewrite (decide_True (P:=Some (Spell.level spell) = Some (Spell.level spell))) by done.
    case_decide; simpl; by rewrite ?app_nil_r.
  - rewrite (decide_True (P:=Spell.level spell ≠ currentLevel)) by done.
    rewrite (decide_False (P:=Some currentLevel = Some (Spell.level spell)))
      by congruence.
    case_decide; simpl; by rewrite <- ?app_assoc.
Qed.

(** The loop, started in any accumulator, appends the presentation
    that has the accumulator's level as the previous one. *)
Lemma listItems_foldl spells expanded currentLevel items :
  snd (foldl (listItems_step expanded) (currentLevel, items) spells) =
  items ++ presentation (Some currentLevel) expanded spells.
Proof.
  revert currentLevel items.
  induction spells as [|spell rest IH]; intros currentLevel items;
    cbn [foldl presentation].
  - by rewrite app_nil_r.
  - rewrite listItems_step_eq, IH. by rewrite <- !app_assoc.
Qed.

Lemma listItems_sentinel spells expanded :
  listItems spells expanded = presentation (Some (-1)) expanded spells.
Proof. unfold listItems. by rewrite listItems_foldl. Qed.

Lemma presentation_first previous spells expanded :
  match spells with
  | [] => True
  | spell :: _ => previous ≠ Some (Spell.level spell)
  end →
  presentation previous expanded spells = presentation None expanded spells.
Proof.
  destruct spells as [|spell rest]; [done|]. simpl. intros Hne.
  by rewrite decide_False by done.
Qed.

Lemma headerLevels_app l1 l2 : headerLevels (l1 ++ l2) = headerLevels l1 ++ headerLevels l2.
Proof. apply omap_app. Qed.

Lemma rowSpells_app l1 l2 : rowSpells (l1 ++ l2) = rowSpells l1 ++ rowSpells l2.
Proof. apply omap_app. Qed.

Lemma headerLevels_expanded previous spells expanded expanded' :
  headerLevels (presentation previous expanded spells) =
  headerLevels (presentation previous expanded' spells).
Proof.
  revert previous. induction spells as [|spell rest IH]; intros previous; [done|].
  simpl. rewrite !headerLevels_app, (IH (Some _)).
  f_equal. f_equal. by repeat case_decide.
Qed.

Lemma rowSpells_presentation previous spells expanded :
  rowSpells (presentation previous expanded spells) =
  List.filter (λ spell, bool_decide (Spell.level spell ∈ expanded)) spells.
Proof.
  revert previous. induction spells as [|spell rest IH]; intros previous; [done|].
  simpl. rewrite !rowSpells_app, IH.
  destruct (decide (previous = _)); case_bool_decide;
    (rewrite decide_True by done) || (rewrite decide_False by done); done.
Qed.

(** With the previous level [p] and the levels after it in
    non-decreasing order, the headers are strictly increasing above [p]. *)
Lemma headerLevels_increasing p spells expanded :
  StronglySorted Z.le (p :: (Spell.level <$> spells)) →
  StronglySorted Z.lt (p :: headerLevels (presentation (Some p) expanded spells)).
Proof.
  revert p. induction spells as [|spell rest IH]; intros p Hs; simpl.
  - repeat constructor.
  - apply StronglySorted_inv in Hs as [Hs Hp].
    rewrite fmap_cons in Hs, Hp.
    apply Forall_cons in Hp as [Hp1 Hp2].
    rewrite !headerLevels_app.
    replace (headerLevels (if decide (Spell.level spell ∈ expanded)
                           then [SpellRow spell (Spell.id spell)] else []))
      with (@nil Z) by (by case_decide).
    simpl. destruct (decide (Some p = Some (Spell.level spell))) as [Heq|Hne]; simpl.
    + injection Heq as Heq. rewrite <- Heq in Hs |- *. by apply IH.
    + assert (p < Spell.level spell) by (assert (p ≠ Spell.level spell) by congruence; lia).
      specialize (IH _ Hs). constructor; [done|].
      constructor; [done|].
      apply StronglySorted_inv in IH as [_ IH].
      eapply Forall_impl; [exact IH|]. simpl. intros; lia.
Qed.

Lemma headerLevels_complete p spells expanded l :
  StronglySorted Z.le (p :: (Spell.level <$> spells)) →
  l ∈ headerLevels (presentation (Some p) expanded spells) ↔
  l ≠ p ∧ ∃ spell, spell ∈ spells ∧ Spell.level spell = l.
Proof.
  revert p. induction spells as [|spell rest IH]; intros p Hs; simpl.
  - split; [by intros ?%elem_of_nil|]. by intros (_ & ? & ?%elem_of_nil & _).
  - apply StronglySorted_inv in Hs as [Hs Hp].
    rewrite fmap_cons in Hs, Hp.
    apply Forall_cons in Hp as [Hp1 Hp2].
    rewrite !headerLevels_app.
    replace (headerLevels (if decide (Spell.level spell ∈ expanded)
                           then [SpellRow spell (Spell.id spell)] else []))
      with (@nil Z) by (by case_decide).
    simpl. destruct (decide (Some p = Some (Spell.level spell))) as [Heq|Hne]; simpl.
    + injection Heq as Heq. rewrite <- Heq in Hs |- *. rewrite (IH _ Hs). split.
      * intros (? & s & ? & ?). split; [done|]. exists s. by rewrite elem_of_cons; auto.
      * intros (? & s & [->|?]%elem_of_cons & ?); [congruence|]. eauto.
    + assert (p < Spell.level spell) by (assert (p ≠ Spell.level spell) by congruence; lia).
      rewrite elem_of_cons, (IH _ Hs). split.
      * intros [->|(? & s & Hin & <-)].
        -- split; [lia|]. exists spell. by rewrite elem_of_cons; auto.
        -- apply StronglySorted_inv in Hs as [_ Hall].
           rewrite Forall_fmap, Forall_forall in Hall.
           specialize (Hall s Hin). simpl in Hall.
           split; [lia|]. exists s. by rewrite elem_of_cons; auto.
      * intros (? & s & [->|Hin]%elem_of_cons & <-); [by left|].
        destruct (decide (Spell.level s = Spell.level spell)); [by left|].
        right. eauto.
Qed.

Lemma StronglySorted_lt_NoDup (l : list Z) : StronglySorted Z.lt l → NoDup l.
Proof.
  induction 1 as [|x l Hl IH Hx]; constructor; [|done].
  intros Hin. rewrite Forall_forall in Hx. specialize (Hx _ Hin). lia.
Qed.

(** C6. For a spell list in non-decreasing level order (levels are not
    negative), [listItems] is the presentation of the contract: a
    header exactly where the level differs from the previous spell's, a
    row exactly for the spells of expanded levels.  The header levels
    are then strictly increasing (so without repetition), are exactly
    the levels present in the list, and do not depend on the expanded
    set. *)
Theorem listItems_presentation spells expanded :
  Sorted (λ a b, Spell.level a ≤ Spell.level b) spells →
  Forall (λ spell, 0 ≤ Spell.level spell) spells →
  listItems spells expanded = presentation None expanded spells ∧
  StronglySorted Z.lt (headerLevels (listItems spells expanded)) ∧
  NoDup (headerLevels (listItems spells expanded)) ∧
  (∀ l, l ∈ headerLevels (listItems spells expanded) ↔
        ∃ spell, spell ∈ spells ∧ Spell.level spell = l) ∧
  (∀ expanded', headerLevels (listItems spells expanded') =
                headerLevels (listItems spells expanded)) ∧
  rowSpells (listItems spells expanded) =
    List.filter (λ spell, bool_decide (Spell.level spell ∈ expanded)) spells.
Proof.
  intros Hsorted Hlevels.
  assert (Hs : StronglySorted Z.le (-1 :: (Spell.level <$> spells))).
  { constructor.
    - apply Sorted_StronglySorted; [intros ???; lia|].
      clear Hlevels. induction Hsorted as [|x l Hl IH Hhd]; simpl; constructor; [done|].
      destruct Hhd; simpl; constructor; done.
    - rewrite Forall_fmap. eapply Forall_impl; [exact Hlevels|]. simpl. intros; lia. }
  pose proof (headerLevels_increasing _ _ expanded Hs) as Hinc.
  apply StronglySorted_inv in Hinc as [Hinc _].
  rewrite !listItems_sentinel.
  split; [|split; [done|split; [by apply StronglySorted_lt_NoDup|split; [|split]]]].
  - apply presentation_first. destruct Hlevels as [|spell rest Hspell _]; [done|].
    intros [= E]. lia.
  - intros l. rewrite (headerLevels_complete _ _ _ _ Hs). split; [by intros [_ ?]|].
    intros (spell & Hin & <-). split; [|eauto].
    rewrite Forall_forall in Hlevels. specialize (Hlevels _ Hin). simpl in Hlevels. lia.
  - intros expanded'. rewrite !listItems_sentinel. apply headerLevels_expanded.
  - apply rowSpells_presentation.
Qed.
End Presentation.

Lemma listItems_presentation_witness :
  let spells := [Sample.light; Sample.shield; Sample.fireball] in
  let expanded : gset Z := {[0; 3]} in
  Sorted (λ a b, Spell.level a ≤ Spell.level b) spells ∧
  Forall (λ spell, 0 ≤ Spell.level spell) spells ∧
  headerLevels (SpellSelectionModal.listItems spells expanded) = [0; 1; 3] ∧
  rowSpells (SpellSelectionModal.listItems spells expanded) = [Sample.light; Sample.fireball] ∧
  NoDup (headerLevels (SpellSelectionModal.listItems spells expanded)).
Proof.
  intros spells expanded.
  assert (Hsorted : Sorted (λ a b, Spell.level a ≤ Spell.level b) spells).
  { repeat constructor; simpl; lia. }
  assert (Hlevels : Forall (λ spell, 0 ≤ Spell.level spell) spells).
  { repeat constructor; simpl; lia. }
  split; [exact Hsorted|]. split; [exact Hlevels|].
  split; [reflexivity|]. split; [reflexivity|].
  exact (proj1 (proj2 (proj2 (listItems_presentation spells expanded Hsorted Hlevels)))).
Defined.

(** ** Selection state *)

Section Selection.
Import SpellSelectionModal.

Lemma size_list_to_set_NoDup (ids : list string) :
  NoDup ids → size (list_to_set ids : gset string) = length ids.
Proof. apply size_list_to_set. Qed.

(** C3 (amended). [handleSelectAll] clears the selection when the
    number of selected identifiers equals the number of filtered
    spells, and otherwise sets it to exactly the identifiers of the
    filtered spells.  When the filtered spells have pairwise distinct
    identifiers and the selection lies within them, "same number" is
    the same as "all selected"; and then, starting from the empty
    selection, two applications return to the empty selection. *)
Theorem handleSelectAll_toggle (filtered : list Spell.t) (st : state) :
  let ids : gset string := list_to_set (Spell.id <$> filtered) in
  (size (selectedSpells st) ≠ length filtered →
   selectedSpells (handleSelectAll filtered st) = ids) ∧
  (size (selectedSpells st) = length filtered →
   selectedSpells (handleSelectAll filtered st) = ∅) ∧
  (NoDup (Spell.id <$> filtered) →
   (selectedSpells st ⊆ ids →
    size (selectedSpells st) = length filtered ↔ selectedSpells st = ids) ∧
   (selectedSpells st = ∅ →
    selectedSpells (handleSelectAll filtered (handleSelectAll filtered st)) = ∅)).
Proof.
  intros ids. unfold handleSelectAll.
  split; [|split].
  - intros Hne. by rewrite decide_False.
  - intros Heq. by rewrite decide_True.
  - intros Hnodup.
    assert (Hsize : size ids = length filtered).
    { unfold ids. rewrite size_list_to_set_NoDup by done. by rewrite length_fmap. }
    split.
    + intros Hsub. split.
      * intros Hlen. apply set_subseteq_size_eq; [done|]. lia.
      * intros ->. done.
    + intros Hempty.
      destruct (decide (size (selectedSpells st) = length filtered)) as [Hlen|Hlen];
        simpl.
      * rewrite Hempty in Hlen. by rewrite decide_True.
      * fold ids. by rewrite decide_True.
Qed.
End Selection.

Lemma handleSelectAll_toggle_witness :
  NoDup (Spell.id <$> Sample.catalog) ∧
  SpellSelectionModal.selectedSpells
    (SpellSelectionModal.handleSelectAll Sample.catalog SpellSelectionModal.initial) =
    list_to_set (Spell.id <$> Sample.catalog) ∧
  SpellSelectionModal.selectedSpells
    (SpellSelectionModal.handleSelectAll Sample.catalog
       (SpellSelectionModal.handleSelectAll Sample.catalog SpellSelectionModal.initial)) = ∅.
Proof.
  assert (Hnodup : NoDup (Spell.id <$> Sample.catalog)).
  { apply (bool_decide_unpack _). vm_compute. exact I. }
  pose proof (handleSelectAll_toggle Sample.catalog SpellSelectionModal.initial)
    as (Hset & _ & Htwice).
  split; [exact Hnodup|]. split.
  - apply Hset. vm_compute. discriminate.
  - apply (Htwice Hnodup). reflexivity.
Defined.

(** C3 as stated fails.  With the selection [{"s1"}] left from an
    earlier filter and the filtered list now holding only the spell
    ["s2"], the spell is not selected, yet [handleSelectAll] clears the
    selection instead of selecting it: the test compares sizes, not
    members.  And with the same identifier twice in the filtered list,
    two applications from the empty selection do not return to it. *)
Lemma handleSelectAll_compares_sizes :
  let st := SpellSelectionModal.setSelectedSpells {["s1"]} SpellSelectionModal.initial in
  let all : gset string := list_to_set (Spell.id <$> [Sample.light]) in
  let twice := [Sample.light; Sample.light] in
  SpellSelectionModal.selectedSpells st ≠ all ∧
  SpellSelectionModal.selectedSpells (SpellSelectionModal.handleSelectAll [Sample.light] st) = ∅ ∧
  all ≠ ∅ ∧
  SpellSelectionModal.selectedSpells
    (SpellSelectionModal.handleSelectAll twice
       (SpellSelectionModal.handleSelectAll twice SpellSelectionModal.initial)) ≠ ∅.
Proof.
  intros st all twice. repeat split.
  - intros E. apply (f_equal elements) in E. vm_compute in E. discriminate.
  - intros E. apply (f_equal elements) in E. vm_compute in E. discriminate.
  - intros E. apply (f_equal elements) in E. vm_compute in E. discriminate.
Qed.

(** ** Slot adjustment *)

Section SlotAdjuster.
Context `{JsStrings}.
Context (classesData : list DnDClass.t).
Import Remote GrimoireTab.

(** What one run does once a character is selected, a session exists
    and the level holds an array with at least two entries. *)
Lemma updateSpellSlot_run w st sel token slots lvl type delta arr arr' :
  selectedCharacter st = Some sel →
  session w = Session token →
  Character.spell_slots (character sel) = Some slots →
  slots !! lvl = Some (Character.SlotArray arr) →
  adjustSlots type delta arr = Some arr' →
  let req := slotsRequest (character sel) token (<[lvl := Character.SlotArray arr']> slots) in
  updateSpellSlot classesData w lvl type delta st =
  Some (match put w req with
        | Response true (Some updated) => (refreshed classesData sel updated st, [Sent req])
        | Response false _ =>
            (st, [Sent req;
                  Alert "Erro" "Não foi possível atualizar os espaços de magia."])
        | _ =>
            (st, [Sent req;
                  ConsoleError "Error updating spell slot:";
                  Alert "Erro" "Erro ao atualizar espaços de magia."])
        end).
Proof.
  intros Hsel Hsess Hslots Hlvl Hadj req. unfold updateSpellSlot.
  rewrite Hsel, Hsess, Hslots. simpl. rewrite Hlvl, Hadj. simpl. fold req.
  by destruct (put w req) as [|[] []].
Qed.

Lemma clamp_max_min x hi : 0 ≤ hi → Z.max 0 (Z.min hi x) = clamp x 0 hi.
Proof. intros. unfold clamp. repeat case_decide; lia. Qed.

(** C1 (amended). With an array [current, max, ...] stored at the
    level, adjusting "current" persists max(0, min(max, current +
    delta)), which is never negative and, when the stored max is not
    negative, is clamp(current + delta, 0, max) and lies in [0, max];
    adjusting "max" persists the new max max(old max + delta, 0),
    never negative, together with the current value lowered to min(old
    current, new max), so that current ≤ new max. *)
Theorem updateSpellSlot_clamp (w : world) (st : state) (sel : CharacterSpells)
    (token : string) (slots : gmap Z Character.slotValue) (lvl delta c m : Z)
    (rest : list Z) :
  selectedCharacter st = Some sel →
  session w = Session token →
  Character.spell_slots (character sel) = Some slots →
  slots !! lvl = Some (Character.SlotArray (c :: m :: rest)) →
  (∃ st' evs req c',
     updateSpellSlot classesData w lvl Current delta st = Some (st', Sent req :: evs) ∧
     payload req = SpellSlotsBody (<[lvl := Character.SlotArray (c' :: m :: rest)]> slots) ∧
     c' = Z.max 0 (Z.min m (c + delta)) ∧
     0 ≤ c' ∧
     (0 ≤ m → c' = clamp (c + delta) 0 m ∧ c' ≤ m)) ∧
  (∃ st' evs req c' m',
     updateSpellSlot classesData w lvl Max delta st = Some (st', Sent req :: evs) ∧
     payload req = SpellSlotsBody (<[lvl := Character.SlotArray (c' :: m' :: rest)]> slots) ∧
     m' = Z.max (m + delta) 0 ∧
     0 ≤ m' ∧
     c' = Z.min c m' ∧
     c' ≤ m').
Proof.
  intros Hsel Hsess Hslots Hlvl. split.
  - pose proof (updateSpellSlot_run w st sel token slots lvl Current delta _ _
                  Hsel Hsess Hslots Hlvl eq_refl) as Hrun.
    simpl in Hrun.
    set (req := slotsRequest _ _ _) in Hrun.
    assert (∃ st' evs, updateSpellSlot classesData w lvl Current delta st =
                       Some (st', Sent req :: evs)) as (st' & evs & Hst').
    { rewrite Hrun. destruct (put w req) as [|[] []]; eauto. }
    exists st', evs, req, (Z.max 0 (Z.min m (c + delta))).
    split; [done|]. split; [done|]. split; [done|]. split; [lia|].
    intros Hm. split; [by apply clamp_max_min|lia].
  - pose proof (updateSpellSlot_run w st sel token slots lvl Max delta _ _
                  Hsel Hsess Hslots Hlvl eq_refl) as Hrun.
    simpl in Hrun.
    set (req := slotsRequest _ _ _) in Hrun.
    assert (∃ st' evs, updateSpellSlot classesData w lvl Max delta st =
                       Some (st', Sent req :: evs)) as (st' & evs & Hst').
    { rewrite Hrun. destruct (put w req) as [|[] []]; eauto. }
    exists st', evs, req, (Z.min c (Z.max 0 (m + delta))), (Z.max 0 (m + delta)).
    split; [done|]. split; [done|]. repeat split; lia.
Qed.
End SlotAdjuster.

Lemma updateSpellSlot_clamp_witness :
  ∃ st' evs req,
    GrimoireTab.updateSpellSlot [Sample.wizard] (Sample.online Sample.gandalf) 1
      GrimoireTab.Current (-5) (Sample.grimoire Sample.gandalf) =
      Some (st', Remote.Sent req :: evs) ∧
    Remote.payload req =
      Remote.SpellSlotsBody
        (<[1 := Character.SlotArray [0; 4]]>
           (<[1 := Character.SlotArray [4; 4]]> (<[2 := Character.SlotArray [1; 3]]> ∅))).
Proof.
  destruct (updateSpellSlot_clamp [Sample.wizard] (Sample.online Sample.gandalf)
              (Sample.grimoire Sample.gandalf)
              (GrimoireTab.prepareCharacterSpells [Sample.wizard] Sample.catalog Sample.gandalf)
              "token"
              (<[1 := Character.SlotArray [4; 4]]> (<[2 := Character.SlotArray [1; 3]]> ∅))
              1 (-5) 4 4 [] eq_refl eq_refl eq_refl eq_refl)
    as [(st' & evs & req & c' & Hrun & Hbody & Hc & _) _].
  exists st', evs, req. split; [exact Hrun|].
  rewrite Hbody, Hc. reflexivity.
Defined.

(** C1 as stated fails for a negative stored max.  With [0, -1] stored at
    level 1, adjusting "current" by +1 persists current = 0, which is not
    within [0, -1]. *)
Lemma updateSpellSlot_negative_max :
  ∃ st' evs req c',
    GrimoireTab.updateSpellSlot [Sample.wizard] (Sample.online Sample.cursed) 1
      GrimoireTab.Current 1 (Sample.grimoire Sample.cursed) =
      Some (st', Remote.Sent req :: evs) ∧
    Remote.payload req =
      Remote.SpellSlotsBody
        (<[1 := Character.SlotArray [c'; -1]]> (<[1 := Character.SlotArray [0; -1]]> ∅)) ∧
    ¬ (0 ≤ c' ≤ -1).
Proof.
  eexists _, _, _, 0. split; [reflexivity|]. split; [reflexivity|]. lia.
Qed.

(** ** Failure and success of the remote update *)

(** No request among a given list of alerts and log lines. *)
Ltac no_request :=
  let Hin := fresh "Hin" in
  intros ? Hin;
  repeat (apply elem_of_cons in Hin as [Hin|Hin]; [discriminate Hin|]);
  by apply elem_of_nil in Hin.


Section RemoteUpdate.
Context `{JsStrings}.
Context (classesData : list DnDClass.t).
Import Remote GrimoireTab.



End RemoteUpdate.


(** ** What an adjustment leaves alone *)

Section Frame.
Context `{JsStrings}.
Context (classesData : list DnDClass.t).
Import Remote GrimoireTab.

(** C10. With an array of at least two entries stored at level L of the
    selected character, one adjustment sends a request whose body is a
    slot mapping and nothing else, and in that mapping every level other
    than L holds what the character held.  When the store answers with
    the character as updated by that body, the detail view shows a
    character whose identifier, name, class, level, hit points and known
    spells are as before and whose slots are the persisted mapping, and
    the character list has that character in place of each entry with
    the same identifier and every other entry as before. *)
Theorem updateSpellSlot_frame (w : world) (st : state) (sel : CharacterSpells)
    (token : string) (slots : gmap Z Character.slotValue) (lvl : Z) (type : slotField)
    (delta c m : Z) (rest : list Z) :
  selectedCharacter st = Some sel →
  session w = Session token →
  Character.spell_slots (character sel) = Some slots →
  slots !! lvl = Some (Character.SlotArray (c :: m :: rest)) →
  ∃ st' evs req slots',
    updateSpellSlot classesData w lvl type delta st = Some (st', Sent req :: evs) ∧
    (∀ r, Sent r ∉ evs) ∧
    payload req = SpellSlotsBody slots' ∧
    (∀ l, l ≠ lvl → slots' !! l = slots !! l) ∧
    (put w req = Response true (Some (applyUpdate (character sel) (payload req))) →
     ∃ sel',
       selectedCharacter st' = Some sel' ∧
       Character.id (character sel') = Character.id (character sel) ∧
       Character.name (character sel') = Character.name (character sel) ∧
       Character.class_name (character sel') = Character.class_name (character sel) ∧
       Character.level (character sel') = Character.level (character sel) ∧
       Character.hp_current (character sel') = Character.hp_current (character sel) ∧
       Character.hp_max (character sel') = Character.hp_max (character sel) ∧
       Character.spells_known (character sel') = Character.spells_known (character sel) ∧
       Character.spell_slots (character sel') = Some slots' ∧
       characters st' =
         (λ char, if decide (Character.id char = Character.id (character sel))
                  then character sel' else char) <$> characters st).
Proof.
  intros Hsel Hsess Hslots Hlvl.
  assert (∃ arr', adjustSlots type delta (c :: m :: rest) = Some arr') as [arr' Hadj].
  { destruct type; simpl; eauto. }
  pose proof (updateSpellSlot_run classesData w st sel token slots lvl type delta _ _
                Hsel Hsess Hslots Hlvl Hadj) as Hrun.
  simpl in Hrun. set (req := slotsRequest _ _ _) in Hrun.
  assert (∃ st' evs, updateSpellSlot classesData w lvl type delta st =
                     Some (st', Sent req :: evs) ∧ (∀ r, Sent r ∉ evs) ∧
                     (∀ updated, put w req = Response true (Some updated) →
                                 st' = refreshed classesData sel updated st))
    as (st' & evs & Hst' & Hevs & Hok).
  { rewrite Hrun. destruct (put w req) as [|[] [updated|]];
      eexists _, _; (split; [reflexivity|]); (split; [no_request|]);
      intros updated' [=]; congruence. }
  exists st', evs, req, (<[lvl := Character.SlotArray arr']> slots).
  split; [done|]. split; [done|]. split; [done|].
  split; [intros l Hl; by rewrite lookup_insert_ne|].
  intros Hput. rewrite (Hok _ Hput). eexists. split; [reflexivity|].
  simpl. done.
Qed.
End Frame.

Lemma updateSpellSlot_frame_witness :
  ∃ st' evs req slots' sel',
    GrimoireTab.updateSpellSlot [Sample.wizard] (Sample.online Sample.gandalf) 1
      GrimoireTab.Max (-1) (Sample.grimoire Sample.gandalf) =
      Some (st', Remote.Sent req :: evs) ∧
    Remote.payload req = Remote.SpellSlotsBody slots' ∧
    slots' !! 2 = Some (Character.SlotArray [1; 3]) ∧
    GrimoireTab.selectedCharacter st' = Some sel' ∧
    Character.name (GrimoireTab.character sel') = "Gandalf" ∧
    Character.spell_slots (GrimoireTab.character sel') = Some slots'.
Proof.
  destruct (updateSpellSlot_frame [Sample.wizard] (Sample.online Sample.gandalf)
              (Sample.grimoire Sample.gandalf)
              (GrimoireTab.prepareCharacterSpells [Sample.wizard] Sample.catalog Sample.gandalf)
              "token"
              (<[1 := Character.SlotArray [4; 4]]> (<[2 := Character.SlotArray [1; 3]]> ∅))
              1 GrimoireTab.Max (-1) 4 4 [] eq_refl eq_refl eq_refl eq_refl)
    as (st' & evs & req & slots' & Hrun & _ & Hbody & Hframe & Hlocal).
  destruct (Hlocal eq_refl) as (sel' & Hsel' & _ & Hname & _ & _ & _ & _ & _ & Hslots' & _).
  exists st', evs, req, slots', sel'. split; [exact Hrun|]. split; [exact Hbody|].
  split; [rewrite (Hframe 2) by lia; reflexivity|].
  split; [exact Hsel'|]. split; [rewrite Hname; reflexivity|exact Hslots'].
Defined.

(** ** Grimoire aggregation *)

Section Grimoire.
Context `{JsStrings}.
Context (classesData : list DnDClass.t).
Import GrimoireTab.



(** Grouping: after the loop, a level holds what it held before followed
    by the spells of that level, in order. *)
Lemma pushByLevel_foldl spells (m : gmap Z (list Spell.t)) lvl :
  foldl pushByLevel m spells !! lvl =
  match levelGroup lvl spells with
  | [] => m !! lvl
  | g => Some (default [] (m !! lvl) ++ g)
  end.
Proof.
  revert m. induction spells as [|spell rest IH]; intros m; [done|].
  cbn [foldl]. rewrite IH. unfold levelGroup, pushByLevel. simpl.
  case_bool_decide as Hlvl.
  - rewrite Hlvl, lookup_insert_eq. simpl.
    destruct (List.filter _ rest); by rewrite <- ?app_assoc.
  - by rewrite lookup_insert_ne.
Qed.

Lemma spellsByLevel_lookup allSpells character lvl :
  let r := prepareCharacterSpells classesData allSpells character in
  spellsByLevel r !! lvl =
  match levelGroup lvl (spells r) with
  | [] => None
  | g => Some (array_sort compareNames g)
  end.
Proof.
  simpl. rewrite lookup_fmap, pushByLevel_foldl, lookup_empty.
  by destruct (levelGroup lvl _).
Qed.


Lemma slotInfo_Some entry info :
  slotInfo entry = Some info ↔
  ∃ rest, entry = (level info, Character.SlotArray (current info :: max info :: rest)).
Proof.
  destruct entry as [lvl [[|c [|m rest]]|]]; simpl;
    try (split; [done|intros [? [=]]]).
  split.
  - intros [= <-]. by exists rest.
  - intros [rest' [= -> -> -> ->]]. by destruct info.
Qed.

(** [Object.entries] hands over the stored levels in an order of its own;
    the sort that follows makes that order immaterial. *)
Lemma spellSlots_any_enumeration allSpells character slots entries :
  Character.spell_slots character = Some slots →
  entries ≡ₚ map_to_list slots →
  spellSlots (prepareCharacterSpells classesData allSpells character) =
  array_sort (λ a b, level a - level b) (omap slotInfo entries).
Proof.
  intros Hslots Hperm. simpl. rewrite Hslots.
  apply (array_sort_any_order level); [by rewrite Hperm|].
  intros x y ([lx vx] & Hx & Hix)%list_elem_of_omap
             ([ly vy] & Hy & Hiy)%list_elem_of_omap Hlevel.
  apply elem_of_map_to_list in Hx, Hy.
  apply slotInfo_Some in Hix as [rx [= -> ->]], Hiy as [ry [= -> ->]].
  rewrite Hlevel in Hx. rewrite Hx in Hy. injection Hy as Hc Hm _.
  destruct x, y; simpl in *; congruence.
Qed.

End Grimoire.


(** ** Adding spells to a character *)

Section AddSpells.
Import Remote CharactersTab.

Lemma loadCharacters_sends_get w snap st r :
  Sent r ∈ (loadCharacters w snap st).2 → meth r = GET.
Proof.
  unfold loadCharacters. destruct (load_session w) as [| |token]; simpl.
  - intros [[=]|?%elem_of_nil]%elem_of_cons; done.
  - by intros ?%elem_of_nil.
  - destruct (load_get w _) as [|[] [cs|]]; simpl; intros Hin;
      repeat (apply elem_of_cons in Hin as [Hin|Hin];
              [by (injection Hin as ->) || discriminate Hin|]);
      by apply elem_of_nil in Hin.
Qed.

(** C4 (amended). When a batch of spells is added to the character being
    edited, the spells whose name is already among the character's
    known-spell names (bare names or named objects) are left out; if that
    leaves nothing, no request is sent and the state stays as it is;
    otherwise exactly one update request is sent, whose body is the
    known-spell list followed by one entry per remaining spell.  No added
    entry has a name that was known, and when the names in the batch are
    pairwise distinct no two added entries have the same name. *)
Theorem handleAddSpellsToGrimoire_new_only (w : world) (st : state)
    (target : Character.t) (token : string) (spells : list Spell.t) :
  spellSelectionCharacter st = Some target →
  session w = Session token →
  let known := default [] (Character.spells_known target) in
  let knownNames := Character.knownSpellName <$> known in
  let newSpells :=
    List.filter (λ spell, negb (bool_decide (Spell.name spell ∈ knownNames))) spells in
  let added :=
    (λ spell, Character.KnownObject (Spell.name spell) (Spell.level spell)) <$> newSpells in
  let run := handleAddSpellsToGrimoire w spells st in
  ((∀ spell, spell ∈ spells → Spell.name spell ∈ knownNames) →
   run.1 = st ∧ ∀ r, Sent r ∉ run.2) ∧
  ((∃ spell, spell ∈ spells ∧ Spell.name spell ∉ knownNames) →
   ∃ req evs,
     run.2 = Sent req :: evs ∧
     meth req = PUT ∧
     payload req = SpellsKnownBody (known ++ added) ∧
     ∀ r, Sent r ∈ evs → meth r = GET) ∧
  (∀ spell, spell ∈ newSpells ↔ spell ∈ spells ∧ Spell.name spell ∉ knownNames) ∧
  (∀ e, e ∈ added → Character.knownSpellName e ∉ knownNames) ∧
  (NoDup (Spell.name <$> spells) → NoDup (Character.knownSpellName <$> added)).
Proof.
  intros Htarget Hsess known knownNames newSpells added run.
  assert (Hnew : ∀ spell, spell ∈ newSpells ↔
                          spell ∈ spells ∧ Spell.name spell ∉ knownNames).
  { intros spell. unfold newSpells.
    rewrite !list_elem_of_In, filter_In, negb_true_iff, bool_decide_eq_false.
    by rewrite list_elem_of_In. }
  assert (Hrun : run =
            match newSpells with
            | [] => (st, [notify (platform_web w) "Aviso"
                            "Todas as magias selecionadas já estão no grimório do personagem."])
            | _ => run
            end).
  { unfold run, handleAddSpellsToGrimoire. rewrite Htarget, Hsess.
    fold known. fold knownNames. fold newSpells. by destruct newSpells. }
  split; [|split; [|split; [done|split]]].
  - intros Hall. destruct newSpells as [|spell rest] eqn:Hn.
    + rewrite Hrun. split; [done|]. simpl. unfold notify.
      destruct (platform_web w); no_request.
    + assert (Hin : spell ∈ spell :: rest) by (apply elem_of_cons; by left).
      apply Hnew in Hin as [Hin Hnot]. by destruct (Hnot (Hall _ Hin)).
  - intros (spell & Hin & Hnot).
    assert (Hne : newSpells ≠ []).
    { intros Hnil. assert (Hs : spell ∈ newSpells) by by apply Hnew.
      rewrite Hnil in Hs. by apply elem_of_nil in Hs. }
    unfold run, handleAddSpellsToGrimoire. rewrite Htarget, Hsess.
    fold known. fold knownNames. fold newSpells. fold added.
    destruct newSpells as [|s0 rest] eqn:Hn; [done|].
    set (req := {| url := _; meth := PUT; authorization := _; payload := _ |}).
    destruct (put w req) as [|[] [updated|]]; simpl.
    + exists req, [ConsoleError "Error adding spells to grimoire:";
                   notify (platform_web w) "Erro" "Erro ao adicionar magias ao grimório."].
      split; [done|]. split; [done|]. split; [done|].
      unfold notify. destruct (platform_web w); intros r Hr; exfalso; revert r Hr; no_request.
    + destruct (loadCharacters _ _ _) as [st4 evs] eqn:Hload. simpl.
      eexists req, _. split; [done|]. split; [done|]. split; [done|].
      intros r [Hr|Hr]%elem_of_cons.
      * unfold notify in Hr. by destruct (platform_web w).
      * eapply loadCharacters_sends_get. erewrite Hload. exact Hr.
    + exists req, [ConsoleError "Error adding spells to grimoire:";
                   notify (platform_web w) "Erro" "Erro ao adicionar magias ao grimório."].
      split; [done|]. split; [done|]. split; [done|].
      unfold notify. destruct (platform_web w); intros r Hr; exfalso; revert r Hr; no_request.
    + eexists req, _. split; [done|]. split; [done|]. split; [done|].
      unfold notify. destruct (platform_web w); intros r Hr; exfalso; revert r Hr; no_request.
    + eexists req, _. split; [done|]. split; [done|]. split; [done|].
      unfold notify. destruct (platform_web w); intros r Hr; exfalso; revert r Hr; no_request.
  - intros e (spell & -> & [_ Hnot]%Hnew)%list_elem_of_fmap. done.
  - intros Hnodup. unfold added. rewrite <- list_fmap_compose.
    assert (Hsub : sublist ((λ spell, Spell.name spell) <$> newSpells) (Spell.name <$> spells)).
    { unfold newSpells. clear. induction spells as [|s l IH]; simpl; [constructor|].
      destruct (negb _); simpl; by constructor. }
    exact (sublist_NoDup _ _ Hnodup Hsub).
Qed.
End AddSpells.

Lemma handleAddSpellsToGrimoire_new_only_witness :
  ∃ req evs,
    (CharactersTab.handleAddSpellsToGrimoire (Sample.tabWorld Sample.apprentice)
       [Sample.fireball; Sample.shield] (Sample.roster Sample.apprentice)).2 =
      Remote.Sent req :: evs ∧
    Remote.payload req =
      Remote.SpellsKnownBody
        [Character.KnownName "Fireball"; Character.KnownObject "Shield" 1].
Proof.
  destruct (handleAddSpellsToGrimoire_new_only (Sample.tabWorld Sample.apprentice)
              (Sample.roster Sample.apprentice) Sample.apprentice "token"
              [Sample.fireball; Sample.shield] eq_refl eq_refl)
    as (_ & Hsome & _).
  destruct Hsome as (req & evs & Hrun & _ & Hbody & _).
  - exists Sample.shield. split.
    + apply list_elem_of_In. simpl. right. left. reflexivity.
    + intros Hin. apply list_elem_of_In in Hin. simpl in Hin.
      destruct Hin as [Hin|[]]. discriminate Hin.
  - exists req, evs. split; [exact Hrun|]. rewrite Hbody. reflexivity.
Defined.

(** C4 as stated fails for a batch that holds the same name twice.  With
    two catalog spells named "Fireball" selected for a character who
    knows no spell, the request body has two entries named "Fireball":
    the batch is compared with the known names, not with itself. *)
Lemma handleAddSpellsToGrimoire_repeated_name :
  ∃ req evs e1 e2,
    (CharactersTab.handleAddSpellsToGrimoire (Sample.tabWorld Sample.novice)
       [Sample.fireball; Sample.fireball_variant] (Sample.roster Sample.novice)).2 =
      Remote.Sent req :: evs ∧
    Remote.payload req = Remote.SpellsKnownBody [e1; e2] ∧
    Character.knownSpellName e1 = Character.knownSpellName e2.
Proof.
  eexists _, _, _, _. split; [reflexivity|]. split; reflexivity.
Qed.

(** ** Character deletion *)

Section Deletion.
Import Remote CharactersTab.

Lemma response_not_declared : "response" ∉ declared_in_handleDeleteCharacter.
Proof. apply (bool_decide_unpack _). vm_compute. exact I. Qed.

(** C2. In the deletion flow the identifier [response] has no declaration
    in scope.  In a runtime whose global object has no such property
    either, no run removes a character from the state, shows the success
    message or refreshes the list; and when the store's deletion
    completed without error the run ends in the handler's [catch] block
    with the unexpected-error message. *)
Theorem handleDeleteCharacter_success_unreachable (w : world) (characterId : string)
    (st : state) :
  ("response" ∉ declared_in_handleDeleteCharacter) ∧
  (globalThis w !! "response" = None →
   let run := handleDeleteCharacter w characterId st in
   run.1 = st ∧
   (notify (platform_web w) "Sucesso" "Personagem excluído com sucesso!" ∉ run.2) ∧
   (∀ r, Sent r ∉ run.2) ∧
   (∀ token u,
      session w = Session token →
      user st = Some u →
      delete_character w characterId (user_id u) = Deleted None →
      run.2 = unexpectedDeleteError (platform_web w))).
Proof.
  split; [apply response_not_declared|].
  intros Hglobal run.
  assert (Hlast : ∀ token u,
            session w = Session token →
            user st = Some u →
            delete_character w characterId (user_id u) = Deleted None →
            run.2 = unexpectedDeleteError (platform_web w)).
  { intros token u Hsess Huser Hdel. unfold run, handleDeleteCharacter.
    by rewrite Hsess, Huser, Hdel, Hglobal. }
  assert (Hshape :
            run = (st, unexpectedDeleteError (platform_web w)) ∨
            run = (st, [notify (platform_web w) "Erro"
                          "Você precisa estar autenticado para excluir personagens."]) ∨
            run = (st, [ConsoleError "Erro ao deletar personagem:";
                        Alert "Erro" "Não foi possível excluir o personagem."])).
  { unfold run, handleDeleteCharacter. rewrite Hglobal.
    destruct (session w) as [| |token]; [by left|by right; left|].
    destruct (user st) as [u|]; [|by left].
    destruct (delete_character w characterId (user_id u)) as [|[error|]];
      [by left|by right; right|by left]. }
  split; [|split; [|split; [|exact Hlast]]]; clear Hlast.
  - by destruct Hshape as [E|[E|E]]; rewrite E.
  - destruct Hshape as [E|[E|E]]; rewrite E; unfold unexpectedDeleteError, notify;
      destruct (platform_web w); simpl;
      intros Hin; repeat (apply elem_of_cons in Hin as [Hin|Hin]; [discriminate Hin|]);
      by apply elem_of_nil in Hin.
  - destruct Hshape as [E|[E|E]]; rewrite E; unfold unexpectedDeleteError, notify;
      destruct (platform_web w); simpl; no_request.
Qed.

(** The screen's second version has no such reference: there a deletion
    that completed without error shows the success message. *)
Lemma handleDeleteCharacter_screen_succeeds w characterId st token u :
  session w = Session token →
  user st = Some u →
  delete_character w characterId (user_id u) = Deleted None →
  notify (platform_web w) "Sucesso" "Personagem excluído com sucesso!" ∈
    (CharactersScreen.handleDeleteCharacter w characterId st).2.
Proof.
  intros Hsess Huser Hdel. unfold CharactersScreen.handleDeleteCharacter.
  rewrite Hsess, Huser, Hdel. destruct (CharactersScreen.loadCharacters _ _ _). simpl.
  apply elem_of_cons. by left.
Qed.
End Deletion.

Lemma handleDeleteCharacter_success_unreachable_witness :
  CharactersTab.handleDeleteCharacter (Sample.tabWorld Sample.novice) "c4"
    (Sample.roster Sample.novice) =
  (Sample.roster Sample.novice, CharactersTab.unexpectedDeleteError false).
Proof.
  pose proof (handleDeleteCharacter_success_unreachable (Sample.tabWorld Sample.novice) "c4"
                (Sample.roster Sample.novice)) as [_ Hrun].
  destruct (Hrun eq_refl) as (Hst & _ & _ & Hevs).
  specialize (Hevs "token" {| CharactersTab.user_id := "u1" |} eq_refl eq_refl eq_refl).
  destruct (CharactersTab.handleDeleteCharacter _ _ _) as [st' evs].
  simpl in Hst, Hevs. rewrite Hst, Hevs. reflexivity.
Defined.

(** * Further properties of the components *)

#[local] Set Warnings "-clear-no-such-hyp".

(** ** Selection and expansion toggles *)

Section Toggles.
Import SpellSelectionModal.

(** X1. Toggling a spell flips its membership in the selection and that
    of no other spell, leaves the search text, the school filter and the
    expanded levels alone, and toggling the same spell twice gives the
    state back. *)
Theorem toggleSpellSelection_flips (spellId : string) (st : state) :
  (spellId ∈ selectedSpells (toggleSpellSelection spellId st) ↔
   spellId ∉ selectedSpells st) ∧
  (∀ other, other ≠ spellId →
     other ∈ selectedSpells (toggleSpellSelection spellId st) ↔
     other ∈ selectedSpells st) ∧
  searchText (toggleSpellSelection spellId st) = searchText st ∧
  selectedSchool (toggleSpellSelection spellId st) = selectedSchool st ∧
  expandedLevels (toggleSpellSelection spellId st) = expandedLevels st ∧
  toggleSpellSelection spellId (toggleSpellSelection spellId st) = st.
Proof.
  unfold toggleSpellSelection, setSelectedSpells. simpl.
  split; [|split; [|split; [done|split; [done|split; [done|]]]]].
  - case_decide; set_solver.
  - intros other Hne. case_decide; set_solver.
  - destruct st as [sel txt sch lv]. simpl. f_equal.
    destruct (decide (spellId ∈ sel)) as [Hin|Hin].
    + rewrite decide_False by set_solver.
      apply set_eq. intros x. rewrite elem_of_union, elem_of_difference, elem_of_singleton.
      destruct (decide (x = spellId)) as [->|]; naive_solver.
    + rewrite decide_True by set_solver.
      apply set_eq. intros x.
      rewrite elem_of_difference, elem_of_union, elem_of_singleton.
      destruct (decide (x = spellId)) as [->|]; naive_solver.
Qed.

(** X2. Toggling a level's expansion keeps every header of the list,
    hides or shows exactly the rows of that level (a spell of the level
    is a row afterwards exactly when it was not one before), keeps the
    rows of every other level, and toggling twice gives the state back. *)
Theorem toggleLevelExpansion_rows (lvl : Z) (spells : list Spell.t) (st : state) :
  let before := listItems spells (expandedLevels st) in
  let after := listItems spells (expandedLevels (toggleLevelExpansion lvl st)) in
  headerLevels after = headerLevels before ∧
  (∀ spell, Spell.level spell ≠ lvl → spell ∈ rowSpells after ↔ spell ∈ rowSpells before) ∧
  (∀ spell, spell ∈ spells → Spell.level spell = lvl →
     spell ∈ rowSpells after ↔ spell ∉ rowSpells before) ∧
  toggleLevelExpansion lvl (toggleLevelExpansion lvl st) = st.
Proof.
  intros before after. unfold before, after.
  rewrite !listItems_sentinel, !rowSpells_presentation.
  split; [apply headerLevels_expanded|].
  assert (Hrow : ∀ (E : gset Z) spell,
            spell ∈ List.filter (λ s, bool_decide (Spell.level s ∈ E)) spells ↔
            spell ∈ spells ∧ Spell.level spell ∈ E).
  { intros E spell. by rewrite list_elem_of_In, filter_In, bool_decide_eq_true,
      <- list_elem_of_In. }
  assert (Hexp : ∀ l, l ∈ expandedLevels (toggleLevelExpansion lvl st) ↔
                      if decide (l = lvl) then l ∉ expandedLevels st
                      else l ∈ expandedLevels st).
  { intros l. unfold toggleLevelExpansion. simpl.
    destruct (decide (lvl ∈ expandedLevels st)); destruct (decide (l = lvl)) as [->|];
      set_solver. }
  split; [|split].
  - intros spell Hne. rewrite !Hrow, Hexp. by rewrite decide_False.
  - intros spell Hin <-. rewrite !Hrow, Hexp. rewrite decide_True by done. tauto.
  - destruct st as [sel txt sch lv]. unfold toggleLevelExpansion. simpl. f_equal.
    apply set_eq. intros l.
    destruct (decide (lvl ∈ lv)) as [Hin|Hin].
    + rewrite decide_False by set_solver.
      rewrite elem_of_union, elem_of_difference, elem_of_singleton.
      destruct (decide (l = lvl)) as [->|]; naive_solver.
    + rewrite decide_True by set_solver.
      rewrite elem_of_difference, elem_of_union, elem_of_singleton.
      destruct (decide (l = lvl)) as [->|]; naive_solver.
Qed.
End Toggles.

Lemma toggleLevelExpansion_rows_witness :
  let st := SpellSelectionModal.toggleLevelExpansion 3 SpellSelectionModal.initial in
  (Sample.fireball ∉
     rowSpells (SpellSelectionModal.listItems Sample.catalog
                  (SpellSelectionModal.expandedLevels st))) ∧
  headerLevels (SpellSelectionModal.listItems Sample.catalog
                  (SpellSelectionModal.expandedLevels st)) =
  headerLevels (SpellSelectionModal.listItems Sample.catalog
                  (SpellSelectionModal.expandedLevels SpellSelectionModal.initial)).
Proof.
  intros st.
  destruct (toggleLevelExpansion_rows 3 Sample.catalog SpellSelectionModal.initial)
    as (Hhead & _ & Hrows & _).
  split; [|exact Hhead].
  intros Hin. apply (Hrows Sample.fireball) in Hin.
  - apply Hin. apply list_elem_of_In. vm_compute. left. reflexivity.
  - apply list_elem_of_In. simpl. left. reflexivity.
  - reflexivity.
Defined.

(** ** The school list *)

Section SchoolList.
Context `{JsStrings}.
Import SpellSelectionModal.

Lemma defaultCompare_total a b : 0 < defaultCompare a b → defaultCompare b a ≤ 0.
Proof.
  unfold defaultCompare, AsciiRuntime.compare.
  rewrite (String.compare_antisym a b).
  destruct (String.compare b a); simpl; lia.
Qed.

Lemma addSchool_foldl_elem (spells : list Spell.t) (acc : list string) (s : string) :
  s ∈ foldl addSchool acc spells ↔
  s ∈ acc ∨
  ∃ spell, spell ∈ spells ∧ Spell.school spell ≠ "" ∧
           s = trim (Spell.school spell) ∧ s ≠ "".
Proof.
  revert acc. induction spells as [|spell rest IH]; intros acc; cbn [foldl].
  - split; [by left|]. intros [?|(? & ?%elem_of_nil & _)]; done.
  - rewrite IH. unfold addSchool.
    destruct (truthy (Spell.school spell)) eqn:Hs; simpl.
    + apply truthy_true in Hs.
      destruct (truthy (trim (Spell.school spell))) eqn:Ht.
      * apply truthy_true in Ht. case_decide as Hin.
        -- split.
           ++ intros [?|(sp & Hsp & ?)]; [by left|].
              right. exists sp. by rewrite elem_of_cons; auto.
           ++ intros [?|(sp & [->|Hsp]%elem_of_cons & Hne & -> & Hne')];
                [by left|by left|]. right. eauto.
        -- rewrite elem_of_app, list_elem_of_singleton. split.
           ++ intros [[? | ->] | (sp & Hsp & ?)]; [by left| |].
              ** right. exists spell. rewrite elem_of_cons. auto.
              ** right. exists sp. by rewrite elem_of_cons; auto.
           ++ intros [?|(sp & [->|Hsp]%elem_of_cons & Hne & -> & Hne')];
                [by left; left|by left; right|]. right. eauto.
      * apply truthy_false in Ht. split.
        -- intros [?|(sp & Hsp & ?)]; [by left|].
           right. exists sp. by rewrite elem_of_cons; auto.
        -- intros [?|(sp & [->|Hsp]%elem_of_cons & Hne & -> & Hne')];
             [by left|congruence|]. right. eauto.
    + apply truthy_false in Hs. split.
      * intros [?|(sp & Hsp & ?)]; [by left|].
        right. exists sp. by rewrite elem_of_cons; auto.
      * intros [?|(sp & [->|Hsp]%elem_of_cons & Hne & -> & Hne')];
          [by left|congruence|]. right. eauto.
Qed.

Lemma addSchool_foldl_NoDup (spells : list Spell.t) (acc : list string) :
  NoDup acc → NoDup (foldl addSchool acc spells).
Proof.
  revert acc. induction spells as [|spell rest IH]; intros acc Hacc; cbn [foldl]; [done|].
  apply IH. unfold addSchool.
  destruct (truthy (Spell.school spell) && truthy (trim (Spell.school spell))); [|done].
  case_decide as Hin; [done|].
  apply NoDup_app. split; [done|]. split; [|apply NoDup_singleton].
  intros x Hx ->%list_elem_of_singleton. done.
Qed.

(** X3. The school list holds each school once, in the order of the
    default sort; its members are exactly the trimmed schools of the
    class's spells that are not empty; and selecting any member with an
    empty query leaves at least one spell in the filtered list. *)
Theorem availableSchools_selectable (classSpells : list Spell.t) :
  NoDup (availableSchools classSpells) ∧
  Sorted (λ a b, defaultCompare a b ≤ 0) (availableSchools classSpells) ∧
  (∀ s, s ∈ availableSchools classSpells ↔
        ∃ spell, spell ∈ classSpells ∧ Spell.school spell ≠ "" ∧
                 s = trim (Spell.school spell) ∧ s ≠ "") ∧
  (∀ s, s ∈ availableSchools classSpells →
        filteredAndSortedSpells classSpells "" (Some s) ≠ []).
Proof.
  assert (Hmem : ∀ s, s ∈ availableSchools classSpells ↔
            ∃ spell, spell ∈ classSpells ∧ Spell.school spell ≠ "" ∧
                     s = trim (Spell.school spell) ∧ s ≠ "").
  { intros s. unfold availableSchools.
    rewrite elem_of_array_sort, addSchool_foldl_elem. split; [|by right].
    by intros [?%elem_of_nil|?]. }
  split; [|split; [|split; [exact Hmem|]]].
  - unfold availableSchools. rewrite array_sort_perm.
    apply addSchool_foldl_NoDup, NoDup_nil_2.
  - apply array_sort_sorted, defaultCompare_total.
  - intros s (spell & Hin & Hschool & -> & Hne)%Hmem Hnil.
    assert (Hres : spell ∈ filteredAndSortedSpells classSpells ""
                             (Some (trim (Spell.school spell)))).
    { unfold filteredAndSortedSpells.
      rewrite elem_of_array_sort, list_elem_of_In, filter_In, andb_true_iff,
        matchesSearch_true, matchesSchool_true, <- list_elem_of_In.
      split; [done|]. split; [by left|]. simpl. done. }
    rewrite Hnil in Hres. by apply elem_of_nil in Hres.
Qed.
End SchoolList.

Lemma availableSchools_selectable_witness :
  SpellSelectionModal.availableSchools Sample.catalog = ["Abjuration"; "Evocation"] ∧
  SpellSelectionModal.filteredAndSortedSpells Sample.catalog "" (Some "Evocation") ≠ [].
Proof.
  assert (Hlist : SpellSelectionModal.availableSchools Sample.catalog =
                  ["Abjuration"; "Evocation"]) by reflexivity.
  split; [exact Hlist|].
  destruct (availableSchools_selectable Sample.catalog) as (_ & _ & _ & Hsel).
  apply Hsel. rewrite Hlist. apply elem_of_cons. right. apply elem_of_cons. left. reflexivity.
Defined.

(** ** More on the catalog loader *)

Section CatalogLoaderMore.
Context `{JsStrings}.
Import SpellSelectionModal.

Lemma isClassSpell_iff className spell :
  isClassSpell className spell = true ↔
  ∃ cl entry, Spell.classes spell = Some cl ∧ entry ∈ cl ∧ entry ≠ "" ∧
              toLowerCase (trim entry) = toLowerCase className.
Proof.
  unfold isClassSpell. destruct (Spell.classes spell) as [cl|].
  - rewrite existsb_exists. split.
    + intros (entry & Hin & [Ht%truthy_true Heq%bool_decide_eq_true]%andb_true_iff).
      exists cl, entry. by rewrite list_elem_of_In.
    + intros (cl' & entry & [= <-] & Hin%list_elem_of_In & Hne & Heq).
      exists entry. split; [done|]. apply andb_true_iff.
      by rewrite truthy_true, bool_decide_eq_true.
  - split; [done|]. by intros (? & ? & ? & _).
Qed.

Lemma subclassMatches_iff subclass e :
  subclassMatches subclass e = true ↔
  (∃ s, e = DnDClass.SubName s ∧ toLowerCase s = toLowerCase subclass) ∨
  (∃ n, e = DnDClass.SubObject (Some n) ∧ n ≠ "" ∧ toLowerCase n = toLowerCase subclass).
Proof.
  destruct e as [s|[n|]|]; simpl.
  - rewrite bool_decide_eq_true. split; [eauto|].
    intros [(? & [= <-] & ?)|(? & [=] & _)]. done.
  - rewrite andb_true_iff, truthy_true, bool_decide_eq_true. split; [eauto|].
    intros [(? & [=] & _)|(? & [= <-] & ?)]. done.
  - split; [done|]. intros [(? & [=] & _)|(? & [=] & _)].
  - split; [done|]. intros [(? & [=] & _)|(? & [=] & _)].
Qed.

Lemma isSubclassSpell_iff c spell :
  isSubclassSpell c spell = true ↔
  ∃ sl cl subclass e,
    Spell.subclasses spell = Some sl ∧ DnDClass.subclasses c = Some cl ∧
    subclass ∈ sl ∧ e ∈ cl ∧ subclassMatches subclass e = true.
Proof.
  unfold isSubclassSpell.
  destruct (Spell.subclasses spell) as [sl|]; [|split; [done|by intros (?&?&?&?&?&_)]].
  destruct (DnDClass.subclasses c) as [cl|];
    [|split; [done|by intros (?&?&?&?&?&?&_)]].
  rewrite existsb_exists. split.
  - intros (subclass & Hsub & (e & He & Hm)%existsb_exists).
    exists sl, cl, subclass, e. by rewrite !list_elem_of_In.
  - intros (? & ? & subclass & e & [= <-] & [= <-] & Hsub & He & Hm).
    exists subclass. rewrite <- list_elem_of_In. split; [done|].
    apply existsb_exists. exists e. by rewrite <- list_elem_of_In.
Qed.

Lemma filter_sublist {A} (f : A → bool) (l : list A) : sublist (List.filter f l) l.
Proof. induction l as [|x l IH]; simpl; [constructor|]. destruct (f x); by constructor. Qed.

(** X4. For a class with a name, the loader leaves out no eligible
    spell: a spell of the loaded data is returned exactly when a
    non-empty entry of its class list equals the class name (entry
    trimmed, both lower-cased) or one of its subclasses matches a
    subclass descriptor of the class (a bare name, or an object with a
    non-empty name), and the returned spells keep the order of the data. *)
Theorem classSpells_exact (src : sources) (c : DnDClass.t) (className : string)
    (data : list Spell.t) (spell : Spell.t) :
  DnDClass.name c = Some className →
  className ≠ "" →
  spellsData src = Some data →
  (spell ∈ classSpells src (Some c) ↔
   spell ∈ data ∧
   ((∃ cl entry, Spell.classes spell = Some cl ∧ entry ∈ cl ∧ entry ≠ "" ∧
                 toLowerCase (trim entry) = toLowerCase className) ∨
    (∃ sl cl subclass e,
       Spell.subclasses spell = Some sl ∧ DnDClass.subclasses c = Some cl ∧
       subclass ∈ sl ∧ e ∈ cl ∧
       ((∃ s, e = DnDClass.SubName s ∧ toLowerCase s = toLowerCase subclass) ∨
        (∃ n, e = DnDClass.SubObject (Some n) ∧ n ≠ "" ∧
              toLowerCase n = toLowerCase subclass))))) ∧
  sublist (classSpells src (Some c)) data.
Proof.
  intros Hname Hne Hdata. simpl. rewrite Hname, Hdata.
  apply truthy_true in Hne. rewrite Hne.
  split; [|apply filter_sublist].
  rewrite list_elem_of_In, filter_In, orb_true_iff, isClassSpell_iff,
    isSubclassSpell_iff, <- list_elem_of_In.
  split.
  - intros [Hin [Hc|(sl & cl & subclass & e & ? & ? & ? & ? & Hm%subclassMatches_iff)]];
      (split; [done|]); [by left|]. right. by exists sl, cl, subclass, e.
  - intros [Hin [Hc|(sl & cl & subclass & e & ? & ? & ? & ? & Hm%subclassMatches_iff)]];
      (split; [done|]); [by left|]. right. by exists sl, cl, subclass, e.
Qed.

End CatalogLoaderMore.

Lemma classSpells_exact_witness :
  Sample.fireball ∈ SpellSelectionModal.classSpells Sample.sources (Some Sample.wizard) ∧
  sublist (SpellSelectionModal.classSpells Sample.sources (Some Sample.wizard)) Sample.catalog.
Proof.
  destruct (classSpells_exact Sample.sources Sample.wizard "wizard" Sample.catalog
              Sample.fireball eq_refl) as [Hiff Hsub].
  - discriminate.
  - reflexivity.
  - split; [|exact Hsub]. apply Hiff. split.
    + apply list_elem_of_In. simpl. left. reflexivity.
    + left. exists ["Wizard"], "Wizard". split; [reflexivity|]. split.
      * apply list_elem_of_In. simpl. left. reflexivity.
      * split; [discriminate|reflexivity].
Defined.


(** ** More on filtering and sorting *)

Section FilterSortMore.
Context `{JsStrings}.
Import SpellSelectionModal.

(** A list already in order is left as it is by the sort. *)
Lemma array_sort_sorted_id {A} (cmp : A → A → Z) (l : list A) :
  Sorted (λ a b, cmp a b ≤ 0) l → array_sort cmp l = l.
Proof.
  induction 1 as [|x l Hl IH Hhd]; [done|].
  simpl. fold (array_sort cmp l). rewrite IH.
  destruct Hhd as [|y l' Hxy]; simpl; [done|]. by rewrite decide_True.
Qed.

Lemma filter_all {A} (f : A → bool) (l : list A) :
  (∀ x, x ∈ l → f x = true) → List.filter f l = l.
Proof.
  induction l as [|x l IH]; intros Hall; simpl; [done|].
  rewrite (Hall x) by (apply elem_of_cons; by left).
  f_equal. apply IH. intros y Hy. apply Hall. apply elem_of_cons. by right.
Qed.

(** X6. The filtered list is in order: each spell is followed by a spell
    of a higher level, or of the same level and a name that does not
    sort before its own.  It is a rearrangement of the matching catalog
    spells, none lost and none repeated, and filtering it again with the
    same query and school gives the same list. *)
Theorem filteredAndSortedSpells_ordered (catalog : list Spell.t) (query : string)
    (selected : option string) :
  let result := filteredAndSortedSpells catalog query selected in
  Sorted (λ a b, Spell.level a < Spell.level b ∨
                 (Spell.level a = Spell.level b ∧
                  localeCompare (Spell.name a) (Spell.name b) ≤ 0)) result ∧
  result ≡ₚ
    List.filter (λ spell, matchesSearch query spell && matchesSchool selected spell)
      catalog ∧
  filteredAndSortedSpells result query selected = result.
Proof.
  intros result.
  assert (Hsorted : Sorted (λ a b, compareSpells a b ≤ 0) result).
  { apply array_sort_sorted, compareSpells_total. }
  split; [|split].
  - eapply Sorted_weaken; [|exact Hsorted]. simpl. intros a b.
    unfold compareSpells. case_decide as Hl; [lia|].
    intros. right. split; [|done]. by destruct (decide (Spell.level a = Spell.level b)).
  - apply array_sort_perm.
  - unfold filteredAndSortedSpells at 1. rewrite filter_all.
    + by apply array_sort_sorted_id.
    + intros spell Hin. unfold result, filteredAndSortedSpells in Hin.
      rewrite elem_of_array_sort, list_elem_of_In, filter_In in Hin. by destruct Hin.
Qed.
End FilterSortMore.

(** ** Committing the selection *)

Section Commit.
Import SpellSelectionModal.

Lemma elem_of_spellsToAdd filtered st spell :
  spell ∈ spellsToAdd filtered st ↔
  spell ∈ filtered ∧ Spell.id spell ∈ selectedSpells st.
Proof.
  unfold spellsToAdd.
  by rewrite list_elem_of_In, filter_In, bool_decide_eq_true, <- list_elem_of_In.
Qed.

(** X7. With nothing selected, the add button only warns: no callback
    runs and the state stays.  With a selection, the user is asked; a
    refusal changes nothing and runs no callback; an approval hands
    over, in the order of the filtered list, exactly the filtered spells
    whose identifier is selected, then closes the modal and resets its
    state.  A selected identifier that the current filter hides is not
    handed over. *)
Theorem handleAddSelectedSpells_hands_over (web confirmed : bool) (characterName : string)
    (filtered : list Spell.t) (st : state) :
  let run := handleAddSelectedSpells web confirmed characterName filtered st in
  (selectedSpells st = ∅ →
   run.1 = st ∧ ∃ message, run.2 = [Warned web message]) ∧
  (selectedSpells st ≠ ∅ → confirmed = false →
   run.1 = st ∧ ∃ question, run.2 = [Asked web question]) ∧
  (selectedSpells st ≠ ∅ → confirmed = true →
   run.1 = initial ∧
   ∃ question,
     run.2 = [Asked web question; OnAddSpells (spellsToAdd filtered st); OnClose]) ∧
  (∀ spell, spell ∈ spellsToAdd filtered st ↔
            spell ∈ filtered ∧ Spell.id spell ∈ selectedSpells st) ∧
  sublist (spellsToAdd filtered st) filtered.
Proof.
  intros run. unfold run, handleAddSelectedSpells.
  split; [|split; [|split; [|split]]].
  - intros Hempty. rewrite decide_True by (by rewrite Hempty, size_empty).
    split; [done|]. eauto.
  - intros Hne ->. rewrite decide_False by (by intros ?%size_empty_inv%leibniz_equiv).
    split; [done|]. eauto.
  - intros Hne ->. rewrite decide_False by (by intros ?%size_empty_inv%leibniz_equiv).
    split; [done|]. eauto.
  - apply elem_of_spellsToAdd.
  - apply filter_sublist.
Qed.

(** X8. After "select all" on a filtered list whose size differs from
    the selection's, the batch the add button hands over is the whole
    filtered list; after "select all" on a filtered list of the
    selection's size, which clears the selection, it is empty. *)
Theorem handleSelectAll_then_add (filtered : list Spell.t) (st : state) :
  (size (selectedSpells st) ≠ length filtered →
   spellsToAdd filtered (handleSelectAll filtered st) = filtered) ∧
  (size (selectedSpells st) = length filtered →
   spellsToAdd filtered (handleSelectAll filtered st) = []).
Proof.
  unfold handleSelectAll. split; intros Hsize.
  - rewrite decide_False by done. unfold spellsToAdd. simpl.
    apply filter_all. intros spell Hin. apply bool_decide_eq_true.
    apply elem_of_list_to_set, list_elem_of_fmap. eauto.
  - rewrite decide_True by done. unfold spellsToAdd. simpl.
    induction filtered as [|spell rest IH]; [done|]. simpl.
    rewrite bool_decide_eq_false_2 by set_solver.
    clear. induction rest as [|s l IH]; [done|]. simpl.
    by rewrite bool_decide_eq_false_2 by set_solver.
Qed.
End Commit.

Lemma handleAddSelectedSpells_hands_over_witness :
  (SpellSelectionModal.handleAddSelectedSpells false true "Gandalf"
     [Sample.light; Sample.shield] Sample.ticked).1 = SpellSelectionModal.initial ∧
  SpellSelectionModal.spellsToAdd [Sample.light; Sample.shield] Sample.ticked =
    [Sample.shield].
Proof.
  destruct (handleAddSelectedSpells_hands_over false true "Gandalf"
              [Sample.light; Sample.shield] Sample.ticked) as (_ & _ & Hyes & _).
  split; [|reflexivity].
  apply Hyes; [|reflexivity].
  intros E. apply (f_equal elements) in E. vm_compute in E. discriminate E.
Defined.

Lemma handleSelectAll_then_add_witness :
  SpellSelectionModal.spellsToAdd Sample.catalog
    (SpellSelectionModal.handleSelectAll Sample.catalog SpellSelectionModal.initial) =
  Sample.catalog.
Proof.
  apply (proj1 (handleSelectAll_then_add Sample.catalog SpellSelectionModal.initial)).
  vm_compute. discriminate.
Defined.

(** ** Keys and counts of the presented list *)

Section Keys.
Import SpellSelectionModal.
Implicit Types (spells : list Spell.t) (expanded : gset Z).

Lemma header_id_inj (a b : Z) :
  "header-" +:+ pretty a = "header-" +:+ pretty b → a = b.
Proof. simpl. intros [= E]. by apply (inj pretty). Qed.

(** The keys of the entries are those of the headers and those of the
    rows, in some order. *)
Lemma itemId_presentation previous spells expanded :
  itemId <$> presentation previous expanded spells ≡ₚ
  ((λ l, "header-" +:+ pretty l) <$> headerLevels (presentation previous expanded spells)) ++
  (Spell.id <$> rowSpells (presentation previous expanded spells)).
Proof.
  revert previous. induction spells as [|spell rest IH]; intros previous; [done|].
  cbn [presentation]. rewrite !headerLevels_app, !rowSpells_app, !fmap_app.
  rewrite (IH (Some (Spell.level spell))).
  destruct (decide (previous = Some (Spell.level spell)));
    destruct (decide (Spell.level spell ∈ expanded)); simpl; try done.
  - apply Permutation_middle.
  - constructor. apply Permutation_middle.
Qed.

(** Whatever came before, the headers are among those the list has when
    nothing came before. *)
Lemma headerLevels_previous previous spells expanded :
  sublist (headerLevels (presentation previous expanded spells))
          (headerLevels (presentation None expanded spells)).
Proof.
  destruct spells as [|spell rest]; [done|]. cbn [presentation].
  rewrite !headerLevels_app. apply sublist_app; [|done].
  rewrite (decide_False (P:=None = Some (Spell.level spell))) by done.
  destruct (decide (previous = _)); simpl.
  - apply sublist_cons. constructor.
  - done.
Qed.

Lemma headerLevels_first_NoDup spells expanded :
  Sorted (λ a b, Spell.level a ≤ Spell.level b) spells →
  NoDup (headerLevels (presentation None expanded spells)).
Proof.
  intros Hsorted. destruct spells as [|spell rest]; [apply NoDup_nil_2|].
  assert (Hs : StronglySorted Z.le (Spell.level spell :: (Spell.level <$> rest))).
  { apply Sorted_StronglySorted; [intros ???; lia|].
    change (Sorted Z.le (Spell.level <$> spell :: rest)).
    induction Hsorted as [|x l Hl IH Hhd]; simpl; constructor; [done|].
    destruct Hhd; simpl; constructor; done. }
  cbn [presentation]. rewrite !headerLevels_app, decide_False by done.
  replace (headerLevels (if decide (Spell.level spell ∈ expanded)
                         then [SpellRow spell (Spell.id spell)] else []))
    with (@nil Z) by (by case_decide).
  simpl. apply StronglySorted_lt_NoDup. by apply headerLevels_increasing.
Qed.

(** X9. For a list in non-decreasing level order whose spells have
    pairwise distinct identifiers, none of them of the form
    "header-<level>", the keys of the presented entries are pairwise
    distinct. *)
Theorem listItems_keys_distinct spells expanded :
  Sorted (λ a b, Spell.level a ≤ Spell.level b) spells →
  NoDup (Spell.id <$> spells) →
  (∀ spell (lvl : Z), spell ∈ spells → Spell.id spell ≠ "header-" +:+ pretty lvl) →
  NoDup (itemId <$> listItems spells expanded).
Proof.
  intros Hsorted Hids Hfresh.
  rewrite listItems_sentinel, itemId_presentation.
  apply NoDup_app. split; [|split].
  - apply NoDup_fmap_2_strong.
    + intros a b _ _. apply header_id_inj.
    + eapply sublist_NoDup; [|apply headerLevels_previous].
      by apply headerLevels_first_NoDup.
  - intros key (lvl & -> & _)%list_elem_of_fmap (spell & E & Hin)%list_elem_of_fmap.
    rewrite rowSpells_presentation, list_elem_of_In, filter_In, <- list_elem_of_In in Hin.
    destruct Hin as [Hin _]. by apply (Hfresh spell lvl).
  - rewrite rowSpells_presentation.
    eapply sublist_NoDup; [exact Hids|]. apply fmap_sublist, filter_sublist.
Qed.

Lemma sum_list_with_zero {A} (l : list A) : sum_list_with (λ _, 0%nat) l = 0%nat.
Proof. induction l; simpl; auto. Qed.

Lemma sum_list_with_plus {A} (f g : A → nat) (l : list A) :
  sum_list_with (λ x, f x + g x)%nat l = (sum_list_with f l + sum_list_with g l)%nat.
Proof. induction l as [|x l IH]; simpl; [done|]. rewrite IH. lia. Qed.

Lemma sum_list_with_ext {A} (f g : A → nat) (l : list A) :
  (∀ x, f x = g x) → sum_list_with f l = sum_list_with g l.
Proof. intros E. induction l as [|x l IH]; simpl; [done|]. by rewrite E, IH. Qed.

Lemma sum_list_with_indicator (x : Z) (l : list Z) :
  NoDup l → x ∈ l →
  sum_list_with (λ y, if decide (x = y) then 1 else 0)%nat l = 1%nat.
Proof.
  induction 1 as [|y l Hy Hl IH]; [by intros ?%elem_of_nil|].
  intros [->|Hin]%elem_of_cons; simpl.
  - rewrite decide_True by done. f_equal.
    clear IH Hl. induction l as [|z l IH]; [done|]. simpl.
    rewrite decide_False by (intros ->; apply Hy; apply elem_of_cons; by left).
    apply IH. intros Hin. apply Hy. apply elem_of_cons. by right.
  - rewrite decide_False by (by intros ->). by apply IH.
Qed.

Lemma spellsInLevel_partition (levels : list Z) spells :
  NoDup levels →
  (∀ spell, spell ∈ spells → Spell.level spell ∈ levels) →
  sum_list_with (spellsInLevel spells) levels = length spells.
Proof.
  intros Hnodup. induction spells as [|spell rest IH]; intros Hall.
  - apply sum_list_with_zero.
  - rewrite (sum_list_with_ext _
               (λ l, (if decide (Spell.level spell = l) then 1 else 0) +
                     spellsInLevel rest l)%nat).
    + rewrite sum_list_with_plus, sum_list_with_indicator, IH; [done| |done|].
      * intros s Hs. apply Hall. apply elem_of_cons. by right.
      * apply Hall. apply elem_of_cons. by left.
    + intros l. unfold spellsInLevel. simpl. case_bool_decide; by case_decide.
Qed.

(** X10. For a list in non-decreasing level order whose levels are not
    negative, the numbers shown on the level headers add up to the
    number of spells in the list, whatever is expanded. *)
Theorem listItems_header_counts spells expanded :
  Sorted (λ a b, Spell.level a ≤ Spell.level b) spells →
  Forall (λ spell, 0 ≤ Spell.level spell) spells →
  sum_list_with (spellsInLevel spells) (headerLevels (listItems spells expanded)) =
  length spells.
Proof.
  intros Hsorted Hlevels. rewrite listItems_sentinel.
  assert (Hfirst : presentation (Some (-1)) expanded spells =
                   presentation None expanded spells).
  { apply presentation_first. destruct Hlevels as [|spell rest Hspell _]; [done|].
    intros [= E]. lia. }
  apply spellsInLevel_partition.
  - rewrite Hfirst. by apply headerLevels_first_NoDup.
  - intros spell Hin.
    assert (Hs : StronglySorted Z.le (-1 :: (Spell.level <$> spells))).
    { constructor.
      - apply Sorted_StronglySorted; [intros ???; lia|].
        clear Hlevels Hfirst Hin.
        induction Hsorted as [|x l Hl IH Hhd]; simpl; constructor; [done|].
        destruct Hhd; simpl; constructor; done.
      - rewrite Forall_fmap. eapply Forall_impl; [exact Hlevels|]. simpl. intros; lia. }
    apply (headerLevels_complete _ _ _ _ Hs). split; [|eauto].
    rewrite Forall_forall in Hlevels. specialize (Hlevels _ Hin). simpl in Hlevels. lia.
Qed.
End Keys.

Lemma listItems_keys_distinct_witness :
  NoDup (SpellSelectionModal.itemId <$>
         SpellSelectionModal.listItems [Sample.light; Sample.shield; Sample.fireball] {[0; 3]}).
Proof.
  apply listItems_keys_distinct.
  - repeat constructor; simpl; lia.
  - apply (bool_decide_unpack _). vm_compute. exact I.
  - intros spell lvl Hin E.
    apply list_elem_of_In in Hin. simpl in Hin.
    destruct Hin as [<-|[<-|[<-|[]]]]; simpl in E; discriminate E.
Defined.

Lemma listItems_header_counts_witness :
  sum_list_with
    (SpellSelectionModal.spellsInLevel [Sample.light; Sample.shield; Sample.fireball])
    (headerLevels (SpellSelectionModal.listItems
                     [Sample.light; Sample.shield; Sample.fireball] ∅)) = 3%nat.
Proof.
  apply (listItems_header_counts [Sample.light; Sample.shield; Sample.fireball] ∅).
  - repeat constructor; simpl; lia.
  - repeat constructor; simpl; lia.
Defined.

(** ** Loading the grimoire *)

Section GrimoireLoading.
Context (classesData : list DnDClass.t).
Import Remote GrimoireTab.


End GrimoireLoading.


(** ** Sequences of slot adjustments *)

Section SlotSequences.
Import GrimoireTab.

(** X12. On a pair with 0 ≤ current ≤ max every adjustment keeps
    0 ≤ current ≤ max.  Raising current by one does nothing when it is
    at max, lowering it by one does nothing when it is at zero, and
    otherwise the opposite step undoes the step.  Lowering max by one
    and raising it again gives the max back, but when the slots were
    full the current value stays one lower. *)
Theorem adjustSlots_sequences (c m : Z) (rest : list Z) :
  0 ≤ c ≤ m →
  (∀ type delta, ∃ c' m',
     adjustSlots type delta (c :: m :: rest) = Some (c' :: m' :: rest) ∧ 0 ≤ c' ≤ m') ∧
  (c = m → adjustSlots Current 1 (c :: m :: rest) = Some (c :: m :: rest)) ∧
  (c = 0 → adjustSlots Current (-1) (c :: m :: rest) = Some (c :: m :: rest)) ∧
  (c < m →
   adjustSlots Current 1 (c :: m :: rest) ≫= adjustSlots Current (-1) =
   Some (c :: m :: rest)) ∧
  (0 < c →
   adjustSlots Current (-1) (c :: m :: rest) ≫= adjustSlots Current 1 =
   Some (c :: m :: rest)) ∧
  (0 < m →
   adjustSlots Max (-1) (c :: m :: rest) ≫= adjustSlots Max 1 =
   Some (Z.min c (m - 1) :: m :: rest)) ∧
  (0 < m → c = m →
   adjustSlots Max (-1) (c :: m :: rest) ≫= adjustSlots Max 1 =
   Some (m - 1 :: m :: rest)).
Proof.
  intros Hcm.
  assert (Hmax : 0 < m →
            adjustSlots Max (-1) (c :: m :: rest) ≫= adjustSlots Max 1 =
            Some (Z.min c (m - 1) :: m :: rest)).
  { intros Hm. simpl. do 2 f_equal; [lia|]. f_equal. lia. }
  split; [|split; [|split; [|split; [|split; [|split; [exact Hmax|]]]]]].
  - intros [] delta; simpl; eexists _, _; (split; [reflexivity|lia]).
  - intros ->. simpl. do 2 f_equal. lia.
  - intros ->. simpl. do 2 f_equal. lia.
  - intros Hlt. simpl. do 2 f_equal. lia.
  - intros Hpos. simpl. do 2 f_equal. lia.
  - intros Hm ->. rewrite (Hmax Hm). do 2 f_equal. lia.
Qed.
End SlotSequences.

Lemma adjustSlots_sequences_witness :
  GrimoireTab.adjustSlots GrimoireTab.Max (-1) [4; 4] ≫=
    GrimoireTab.adjustSlots GrimoireTab.Max 1 = Some [3; 4].
Proof.
  destruct (adjustSlots_sequences 4 4 []) as (_ & _ & _ & _ & _ & _ & Hfull); [lia|].
  apply Hfull; [lia|reflexivity].
Defined.

(** ** What the detail view shows *)

Section DetailView.
Context `{JsStrings}.
Context (classesData : list DnDClass.t).
Import Remote GrimoireTab.

Lemma elem_of_spellSlots allSpells character info :
  info ∈ spellSlots (prepareCharacterSpells classesData allSpells character) ↔
  ∃ slots rest,
    Character.spell_slots character = Some slots ∧
    slots !! level info = Some (Character.SlotArray (current info :: max info :: rest)).
Proof.
  simpl. rewrite elem_of_array_sort.
  destruct (Character.spell_slots character) as [slots|].
  - rewrite list_elem_of_omap. split.
    + intros ([lvl v] & Hin%elem_of_map_to_list & [rest [= -> ->]]%slotInfo_Some). eauto.
    + intros (slots' & rest & [= <-] & Hlook).
      eexists (_, _). split; [by apply elem_of_map_to_list|].
      apply slotInfo_Some. eauto.
  - split; [by intros ?%elem_of_nil|]. by intros (? & ? & ? & _).
Qed.

(** X13. After an adjustment that the store answers with the updated
    character, the detail view shows the persisted pair at the adjusted
    level; when the view was built from the selected character, the
    slots of every other level and the spells and their groups are
    shown as before. *)
Theorem updateSpellSlot_shows_persisted (w : world) (st : state) (sel : CharacterSpells)
    (token : string) (slots : gmap Z Character.slotValue) (lvl : Z) (type : slotField)
    (delta c m : Z) (rest : list Z) :
  selectedCharacter st = Some sel →
  session w = Session token →
  Character.spell_slots (character sel) = Some slots →
  slots !! lvl = Some (Character.SlotArray (c :: m :: rest)) →
  (∀ req, put w req = Response true (Some (applyUpdate (character sel) (payload req)))) →
  ∃ st' sel' req c' m',
    updateSpellSlot classesData w lvl type delta st = Some (st', [Sent req]) ∧
    adjustSlots type delta (c :: m :: rest) = Some (c' :: m' :: rest) ∧
    selectedCharacter st' = Some sel' ∧
    {| current := c'; max := m'; level := lvl |} ∈ spellSlots sel' ∧
    (sel = prepareCharacterSpells classesData (allSpells st) (character sel) →
     (∀ info, level info ≠ lvl → info ∈ spellSlots sel' ↔ info ∈ spellSlots sel) ∧
     spells sel' = spells sel ∧
     spellsByLevel sel' = spellsByLevel sel).
Proof.
  intros Hsel Hsess Hslots Hlvl Hput.
  assert (∃ c' m', adjustSlots type delta (c :: m :: rest) = Some (c' :: m' :: rest))
    as (c' & m' & Hadj).
  { destruct type; simpl; eauto. }
  pose proof (updateSpellSlot_run classesData w st sel token slots lvl type delta _ _
                Hsel Hsess Hslots Hlvl Hadj) as Hrun.
  simpl in Hrun. rewrite Hput in Hrun.
  eexists _, _, _, c', m'. split; [exact Hrun|]. split; [done|].
  split; [reflexivity|].
  split.
  - apply elem_of_spellSlots. simpl. eexists _, rest. split; [reflexivity|].
    by rewrite lookup_insert_eq.
  - intros Hbuilt.
    assert (Hs : spellSlots sel =
                 spellSlots (prepareCharacterSpells classesData (allSpells st)
                               (character sel))) by (by rewrite <- Hbuilt).
    assert (Hk : spells sel =
                 spells (prepareCharacterSpells classesData (allSpells st)
                           (character sel))) by (by rewrite <- Hbuilt).
    assert (Hg : spellsByLevel sel =
                 spellsByLevel (prepareCharacterSpells classesData (allSpells st)
                                  (character sel))) by (by rewrite <- Hbuilt).
    split; [|split]; [|by rewrite Hk|by rewrite Hg].
    intros info Hne. rewrite Hs, !elem_of_spellSlots. simpl. split.
    + intros (? & rest' & [= <-] & Hlook). rewrite lookup_insert_ne in Hlook by done.
      eauto.
    + intros (? & rest' & Hsl & Hlook). rewrite Hslots in Hsl. injection Hsl as <-.
      eexists _, rest'. split; [reflexivity|]. by rewrite lookup_insert_ne.
Qed.

End DetailView.

Lemma updateSpellSlot_shows_persisted_witness :
  ∃ st' sel' req,
    GrimoireTab.updateSpellSlot [Sample.wizard] (Sample.online Sample.gandalf) 2
      GrimoireTab.Current 1 (Sample.grimoire Sample.gandalf) =
      Some (st', [Remote.Sent req]) ∧
    GrimoireTab.selectedCharacter st' = Some sel' ∧
    {| GrimoireTab.current := 2; GrimoireTab.max := 3; GrimoireTab.level := 2 |} ∈
      GrimoireTab.spellSlots sel'.
Proof.
  destruct (updateSpellSlot_shows_persisted [Sample.wizard] (Sample.online Sample.gandalf)
              (Sample.grimoire Sample.gandalf)
              (GrimoireTab.prepareCharacterSpells [Sample.wizard] Sample.catalog Sample.gandalf)
              "token"
              (<[1 := Character.SlotArray [4; 4]]> (<[2 := Character.SlotArray [1; 3]]> ∅))
              2 GrimoireTab.Current 1 1 3 [] eq_refl eq_refl eq_refl eq_refl
              (λ req, eq_refl))
    as (st' & sel' & req & c' & m' & Hrun & Hadj & Hsel' & Hin & _).
  injection Hadj as <- <-.
  exists st', sel', req. split; [exact Hrun|]. split; [exact Hsel'|exact Hin].
Defined.


(** ** The figures on a character's card and the sections of the view *)

Section CardAndSections.
Context `{JsStrings}.
Context (classesData : list DnDClass.t).
Import GrimoireTab.

Lemma sumMax_perm l1 l2 : l1 ≡ₚ l2 → sumMax l1 = sumMax l2.
Proof.
  induction 1 as [|x l1 l2 _ IH|x y l|l1 l2 l3 _ IH1 _ IH2]; simpl; [done|..].
  - by rewrite IH.
  - lia.
  - by rewrite IH1.
Qed.

Lemma addSlots_None (l : list Character.slotValue) : foldl addSlots None l = None.
Proof. induction l as [|v l IH]; [done|]. simpl. exact IH. Qed.

Lemma addSlots_foldl (entries : list (Z * Character.slotValue)) (t : Z) :
  (∀ lvl arr, (lvl, Character.SlotArray arr) ∈ entries → (2 ≤ length arr)%nat) →
  foldl addSlots (Some t) (snd <$> entries) = Some (t + sumMax (omap slotInfo entries)).
Proof.
  revert t. induction entries as [|[lvl v] rest IH]; intros t Hwf; simpl.
  - f_equal. lia.
  - assert (Hrest : ∀ l arr, (l, Character.SlotArray arr) ∈ rest → (2 ≤ length arr)%nat).
    { intros l arr Hin. apply (Hwf l). apply elem_of_cons. by right. }
    destruct v as [[|c [|m tl]]|].
    + exfalso. specialize (Hwf lvl [] ltac:(apply elem_of_cons; by left)). simpl in Hwf. lia.
    + exfalso. specialize (Hwf lvl [c] ltac:(apply elem_of_cons; by left)).
      simpl in Hwf. lia.
    + simpl. rewrite IH by done. f_equal. by rewrite <- Z.add_assoc.
    + simpl. rewrite IH by done. f_equal. by rewrite Z.add_0_r.
Qed.

Lemma addSlots_short (values : list Character.slotValue) (t : option Z) arr :
  Character.SlotArray arr ∈ values → (length arr < 2)%nat →
  foldl addSlots t values = None.
Proof.
  revert t. induction values as [|v rest IH]; intros t Hin Hlen;
    [by apply elem_of_nil in Hin|].
  apply elem_of_cons in Hin as [<-|Hin]; simpl.
  - replace (addSlots t (Character.SlotArray arr)) with (@None Z); [apply addSlots_None|].
    destruct t, arr as [|? [|? ?]]; simpl in *; try done; lia.
  - by apply IH.
Qed.

(** X14. When every array stored in a character's slots has its two
    entries, the total shown on the character's card is the sum of the
    max values that the detail view lists; a stored array with fewer
    than two entries makes the total NaN. *)
Theorem totalSlots_sums_max (allSpells : list Spell.t) (character : Character.t) :
  ((∀ slots lvl arr,
      Character.spell_slots character = Some slots →
      slots !! lvl = Some (Character.SlotArray arr) → (2 ≤ length arr)%nat) →
   totalSlots character =
   Some (sumMax (spellSlots (prepareCharacterSpells classesData allSpells character)))) ∧
  (∀ slots lvl arr,
     Character.spell_slots character = Some slots →
     slots !! lvl = Some (Character.SlotArray arr) → (length arr < 2)%nat →
     totalSlots character = None).
Proof.
  unfold totalSlots. split.
  - intros Hwf. simpl. destruct (Character.spell_slots character) as [slots|]; simpl.
    + rewrite addSlots_foldl.
      * f_equal. rewrite Z.add_0_l. apply sumMax_perm. symmetry. apply array_sort_perm.
      * intros lvl arr Hin%elem_of_map_to_list. by apply (Hwf slots lvl).
    + by rewrite map_to_list_empty.
  - intros slots lvl arr -> Hlook Hlen. simpl.
    apply (addSlots_short _ _ arr); [|done].
    apply list_elem_of_fmap. exists (lvl, Character.SlotArray arr).
    split; [done|]. by apply elem_of_map_to_list.
Qed.

Lemma elem_of_levels_0_9 (lvl : Z) :
  lvl ∈ [0; 1; 2; 3; 4; 5; 6; 7; 8; 9] ↔ 0 ≤ lvl ≤ 9.
Proof. rewrite !elem_of_cons, elem_of_nil. lia. Qed.

Lemma elem_of_levelGroup lvl spells spell :
  spell ∈ levelGroup lvl spells ↔ spell ∈ spells ∧ Spell.level spell = lvl.
Proof.
  unfold levelGroup.
  by rewrite list_elem_of_In, filter_In, bool_decide_eq_true, <- list_elem_of_In.
Qed.

(** X15. The detail view has a section for exactly the levels from 0 to
    9 that have a group, in increasing order and each with the whole
    group; so a resolved spell is shown exactly when its level is
    between 0 and 9, and then in the section of its own level.  A
    resolved spell of another level is counted in the title but not
    shown. *)
Theorem spellSections_levels (allSpells : list Spell.t) (character : Character.t) :
  let r := prepareCharacterSpells classesData allSpells character in
  (∀ lvl group,
     (lvl, group) ∈ spellSections r ↔
     0 ≤ lvl ≤ 9 ∧ group ≠ [] ∧ spellsByLevel r !! lvl = Some group) ∧
  (∀ spell,
     (∃ lvl group, (lvl, group) ∈ spellSections r ∧ spell ∈ group) ↔
     spell ∈ spells r ∧ 0 ≤ Spell.level spell ≤ 9) ∧
  (∀ spell lvl group,
     (lvl, group) ∈ spellSections r → spell ∈ group → Spell.level spell = lvl) ∧
  sublist (fst <$> spellSections r) [0; 1; 2; 3; 4; 5; 6; 7; 8; 9].
Proof.
  intros r.
  set (c0 := prepareCharacterSpells classesData allSpells character) in *.
  assert (Hsec : ∀ lvl group,
            (lvl, group) ∈ spellSections r ↔
            0 ≤ lvl ≤ 9 ∧ group ≠ [] ∧ spellsByLevel r !! lvl = Some group).
  { intros lvl group. unfold spellSections. rewrite list_elem_of_omap. split.
    - intros (l & Hl%elem_of_levels_0_9 & Hsome).
      destruct (spellsByLevel r !! l) as [g|] eqn:Hg; simpl in Hsome.
      + case_decide as Hlen; [done|]. injection Hsome as <- <-.
        split; [done|]. split; [|done]. by intros ->.
      + done.
    - intros (Hl & Hne & Hg). exists lvl. split; [by apply elem_of_levels_0_9|].
      rewrite Hg. simpl. rewrite decide_False; [done|]. by destruct group. }
  assert (Hgroup : ∀ lvl group spell,
            spellsByLevel r !! lvl = Some group →
            spell ∈ group ↔ spell ∈ spells r ∧ Spell.level spell = lvl).
  { intros lvl group spell. unfold r, c0. rewrite spellsByLevel_lookup.
    fold c0.
    destruct (levelGroup lvl _) as [|s g] eqn:Hg; [done|]. intros [= <-].
    transitivity (spell ∈ s :: g);
      [exact (elem_of_array_sort compareNames spell (s :: g))|].
    rewrite <- Hg. apply elem_of_levelGroup. }
  split; [exact Hsec|]. split; [|split].
  - intros spell. split.
    + intros (lvl & group & (Hl & _ & Hg)%Hsec & Hin).
      apply (Hgroup _ _ _ Hg) in Hin as [Hin <-]. done.
    + intros [Hin Hl].
      pose proof (spellsByLevel_lookup classesData allSpells character (Spell.level spell))
        as Hlook. cbv zeta in Hlook. fold c0 in Hlook.
      assert (Hmem : spell ∈ levelGroup (Spell.level spell) (spells c0))
        by (by apply elem_of_levelGroup).
      destruct (levelGroup (Spell.level spell) (spells c0)) as [|s g] eqn:Hg;
        [by apply elem_of_nil in Hmem|].
      exists (Spell.level spell), (array_sort compareNames (s :: g)). split.
      * apply Hsec. split; [done|]. split; [|exact Hlook].
        intros Hnil. apply (f_equal length) in Hnil.
        rewrite (Permutation_length (array_sort_perm compareNames (s :: g))) in Hnil.
        done.
      * by apply (elem_of_array_sort compareNames spell (s :: g)).
  - intros spell lvl group (_ & _ & Hg)%Hsec Hin.
    by apply (Hgroup _ _ _ Hg) in Hin as [_ ?].
  - unfold spellSections. generalize [0; 1; 2; 3; 4; 5; 6; 7; 8; 9].
    intros levels. induction levels as [|l levels IH]; simpl; [constructor|].
    destruct (decide _); simpl; by constructor.
Qed.
End CardAndSections.

Lemma totalSlots_sums_max_witness :
  GrimoireTab.totalSlots Sample.archmage = Some 6 ∧
  sumMax (GrimoireTab.spellSlots
            (GrimoireTab.prepareCharacterSpells [Sample.wizard] Sample.catalog
               Sample.archmage)) = 6.
Proof.
  assert (Hsum : sumMax (GrimoireTab.spellSlots
                           (GrimoireTab.prepareCharacterSpells [Sample.wizard]
                              Sample.catalog Sample.archmage)) = 6) by reflexivity.
  split; [|exact Hsum].
  rewrite <- Hsum.
  apply (proj1 (totalSlots_sums_max [Sample.wizard] Sample.catalog Sample.archmage)).
  intros slots lvl arr [= <-] Hlook.
  destruct (decide (lvl = 1)) as [->|N1].
  { rewrite lookup_insert_eq in Hlook. injection Hlook as <-. simpl. lia. }
  rewrite lookup_insert_ne in Hlook by done.
  destruct (decide (lvl = 3)) as [->|N3].
  { rewrite lookup_insert_eq in Hlook. injection Hlook as <-. simpl. lia. }
  rewrite lookup_insert_ne in Hlook by done.
  destruct (decide (lvl = 9)) as [->|N9].
  { rewrite lookup_insert_eq in Hlook. discriminate Hlook. }
  rewrite lookup_insert_ne, lookup_empty in Hlook by done. discriminate Hlook.
Defined.

Lemma spellSections_levels_witness :
  let r := GrimoireTab.prepareCharacterSpells [Sample.wizard]
             [Sample.wish; Sample.fireball] Sample.archmage in
  Sample.wish ∈ GrimoireTab.spells r ∧
  ¬ ∃ lvl group, (lvl, group) ∈ GrimoireTab.spellSections r ∧ Sample.wish ∈ group.
Proof.
  intros r. split.
  - apply list_elem_of_In. vm_compute. left. reflexivity.
  - intros Hshown.
    destruct (spellSections_levels [Sample.wizard] [Sample.wish; Sample.fireball]
                Sample.archmage) as (_ & Hiff & _).
    apply Hiff in Hshown as [_ Hlevel]. simpl in Hlevel. lia.
Defined.

(** ** Loading the character list *)

Section CharacterList.
Import Remote CharactersTab.

Lemma loadCharacters_keeps w snap st :
  spellSelectionCharacter (loadCharacters w snap st).1 = spellSelectionCharacter st ∧
  user (loadCharacters w snap st).1 = user st.
Proof.
  unfold loadCharacters. destruct (load_session w) as [| |token]; [done..|].
  destruct (load_get w _) as [|[] [fetched|]]; try done.
  simpl. by destruct (selectedCharacter snap).
Qed.

(** X16. Loading the character list always ends with the loading and
    refreshing flags off and never touches the character whose spells
    are being chosen.  When the request succeeds the list is the fetched
    one, and a character that was open is replaced by the fetched
    character of the same identifier, or closed when there is none, so
    that an open character is always one of the list.  In every other
    case the list and the open character stay as they were. *)
Theorem loadCharacters_syncs (w : loadWorld) (snap st : state) :
  let run := loadCharacters w snap st in
  loading run.1 = false ∧
  refreshing run.1 = false ∧
  spellSelectionCharacter run.1 = spellSelectionCharacter st ∧
  (∀ token fetched,
     load_session w = Session token →
     load_get w {| url := "/api/characters"; meth := GET;
                   authorization := bearer token; payload := NoBody |} =
       Response true (Some fetched) →
     characters run.1 = fetched ∧
     (selectedCharacter snap = None → selectedCharacter run.1 = selectedCharacter st) ∧
     (∀ sel, selectedCharacter snap = Some sel →
        match selectedCharacter run.1 with
        | Some c => c ∈ fetched ∧ Character.id c = Character.id sel
        | None => ∀ c, c ∈ fetched → Character.id c ≠ Character.id sel
        end)) ∧
  ((∀ token, load_session w ≠ Session token) ∨
   (∀ req fetched, load_get w req ≠ Response true (Some fetched)) →
   characters run.1 = characters st ∧ selectedCharacter run.1 = selectedCharacter st).
Proof.
  intros run. unfold run, loadCharacters.
  destruct (load_session w) as [| |token] eqn:Hsess; simpl.
  - repeat split; done.
  - repeat split; done.
  - set (req := {| url := _; meth := GET; authorization := _; payload := _ |}).
    destruct (load_get w req) as [|[] [fetched|]] eqn:Hget; simpl.
    + split; [done|]. split; [done|]. split; [done|]. split; [|done].
      intros token' fetched' [= <-]. fold req. by rewrite Hget.
    + split; [by destruct (selectedCharacter snap)|].
      split; [by destruct (selectedCharacter snap)|].
      split; [by destruct (selectedCharacter snap)|]. split.
      * intros token' fetched' [= <-]. fold req. rewrite Hget. intros [= <-].
        destruct (selectedCharacter snap) as [sel|] eqn:Hsnap; simpl.
        -- split; [done|]. split; [done|]. intros sel' [= <-].
           destruct (List.find _ fetched) as [c|] eqn:Hfind.
           ++ apply find_some in Hfind as [Hin Hid%bool_decide_eq_true].
              by rewrite list_elem_of_In.
           ++ intros c Hin%list_elem_of_In.
              pose proof (find_none _ _ Hfind c Hin) as Hno.
              by apply bool_decide_eq_false in Hno.
        -- split; [done|]. split; [done|]. done.
      * intros [Hno|Hno]; [by destruct (Hno token)|by destruct (Hno req fetched)].
    + split; [done|]. split; [done|]. split; [done|]. split; [|done].
      intros token' fetched' [= <-]. fold req. by rewrite Hget.
    + split; [done|]. split; [done|]. split; [done|]. split; [|done].
      intros token' fetched' [= <-]. fold req. by rewrite Hget.
    + split; [done|]. split; [done|]. split; [done|]. split; [|done].
      intros token' fetched' [= <-]. fold req. by rewrite Hget.
Qed.
End CharacterList.

Lemma loadCharacters_syncs_witness :
  let st := CharactersTab.setSelectedCharacter (Some Sample.novice)
              (Sample.roster Sample.novice) in
  let run := CharactersTab.loadCharacters (Sample.tabLoad [Sample.apprentice]) st st in
  CharactersTab.characters run.1 = [Sample.apprentice] ∧
  CharactersTab.selectedCharacter run.1 = None.
Proof.
  intros st run.
  destruct (loadCharacters_syncs (Sample.tabLoad [Sample.apprentice]) st st)
    as (_ & _ & _ & Hok & _).
  destruct (Hok "token" [Sample.apprentice] eq_refl eq_refl) as (Hlist & _ & Hsel).
  split; [exact Hlist|].
  specialize (Hsel Sample.novice eq_refl).
  fold run in Hsel. destruct (CharactersTab.selectedCharacter run.1) as [c|]; [|done].
  destruct Hsel as [Hin Hid]. apply list_elem_of_In in Hin. simpl in Hin.
  destruct Hin as [<-|[]]. discriminate Hid.
Defined.

(** ** Outcomes of adding spells *)

Section AddOutcomes.
Import Remote CharactersTab.

Lemma loadCharacters_silent w snap st : messages (loadCharacters w snap st).2 = [].
Proof.
  unfold loadCharacters. destruct (load_session w) as [| |token]; [done..|].
  by destruct (load_get w _) as [|[] [fetched|]].
Qed.

Lemma messages_notify web title message : isMessage (notify web title message) = true.
Proof. by destruct web. Qed.

(** X17. Every run of the add handler shows exactly one message.  The
    state changes only when the update request received a success
    response with a character; that character then becomes the one whose
    spells are being chosen, and the message shown is the success one. *)
Theorem handleAddSpellsToGrimoire_outcome (w : world) (spells : list Spell.t)
    (st : state) :
  let run := handleAddSpellsToGrimoire w spells st in
  length (messages run.2) = 1%nat ∧
  (run.1 ≠ st →
   ∃ req updated,
     Sent req ∈ run.2 ∧ meth req = PUT ∧ put w req = Response true (Some updated)) ∧
  (∀ req updated,
     Sent req ∈ run.2 → meth req = PUT → put w req = Response true (Some updated) →
     spellSelectionCharacter run.1 = Some updated ∧
     ∃ message, messages run.2 = [notify (platform_web w) "Sucesso" message]).
Proof.
  intros run. unfold run, handleAddSpellsToGrimoire.
  destruct (spellSelectionCharacter st) as [target|] eqn:Htarget.
  2:{ simpl. rewrite messages_notify. split; [done|]. split; [done|].
      intros req updated Hin. exfalso. revert req Hin. unfold notify.
      destruct (platform_web w); no_request. }
  destruct (session w) as [| |token] eqn:Hsess.
  1,2: simpl; rewrite messages_notify; (split; [done|]); (split; [done|]);
    intros req updated Hin; exfalso; revert req Hin; unfold notify;
    destruct (platform_web w); no_request.
  destruct (List.filter _ spells) as [|s0 rest] eqn:Hnew.
  { simpl. rewrite messages_notify. split; [done|]. split; [done|].
    intros req updated Hin. exfalso. revert req Hin. unfold notify.
    destruct (platform_web w); no_request. }
  set (req := {| url := _; meth := PUT; authorization := _; payload := _ |}).
  destruct (put w req) as [|[] [updated|]] eqn:Hput.
  - simpl. rewrite messages_notify. split; [done|]. split; [done|].
    intros r updated [[= ->]|Hin]%elem_of_cons; [congruence|].
    exfalso. revert r Hin. unfold notify. destruct (platform_web w); no_request.
  - destruct (loadCharacters (reload w) st _) as [st4 evs] eqn:Hload.
    pose proof (loadCharacters_silent (reload w) st
                  (setSpellSelectionCharacter (Some updated)
                     (if sameId (selectedCharacter st) (Character.id target)
                      then setSelectedCharacter (Some updated)
                             (setCharacters
                                ((λ char, if decide (Character.id char = Character.id target)
                                          then updated else char) <$> characters st) st)
                      else setCharacters
                             ((λ char, if decide (Character.id char = Character.id target)
                                       then updated else char) <$> characters st) st)))
      as Hsilent.
    pose proof (loadCharacters_keeps (reload w) st
                  (setSpellSelectionCharacter (Some updated)
                     (if sameId (selectedCharacter st) (Character.id target)
                      then setSelectedCharacter (Some updated)
                             (setCharacters
                                ((λ char, if decide (Character.id char = Character.id target)
                                          then updated else char) <$> characters st) st)
                      else setCharacters
                             ((λ char, if decide (Character.id char = Character.id target)
                                       then updated else char) <$> characters st) st)))
      as [Hkeep _].
    rewrite Hload in Hsilent, Hkeep. simpl in Hsilent, Hkeep. simpl.
    rewrite messages_notify, Hsilent.
    split; [done|]. split.
    + intros _. exists req, updated. split; [apply elem_of_cons; by left|done].
    + intros r updated' [[= ->]|Hin]%elem_of_cons Hmeth Hput'.
      * rewrite Hput in Hput'. injection Hput' as <-. split; [done|]. eauto.
      * apply elem_of_cons in Hin as [Hin|Hin];
          [unfold notify in Hin; by destruct (platform_web w)|].
        assert (Hget : meth r = GET).
        { apply (loadCharacters_sends_get (reload w) st
                   (setSpellSelectionCharacter (Some updated)
                      (if sameId (selectedCharacter st) (Character.id target)
                       then setSelectedCharacter (Some updated)
                              (setCharacters
                                 ((λ char, if decide (Character.id char = Character.id target)
                                           then updated else char) <$> characters st) st)
                       else setCharacters
                              ((λ char, if decide (Character.id char = Character.id target)
                                        then updated else char) <$> characters st) st))).
          by rewrite Hload. }
        congruence.
  - simpl. rewrite messages_notify. split; [done|]. split; [done|].
    intros r updated [[= ->]|Hin]%elem_of_cons; [congruence|].
    exfalso. revert r Hin. unfold notify. destruct (platform_web w); no_request.
  - simpl. rewrite messages_notify. split; [done|]. split; [done|].
    intros r updated' [[= ->]|Hin]%elem_of_cons; [congruence|].
    exfalso. revert r Hin. unfold notify. destruct (platform_web w); no_request.
  - simpl. rewrite messages_notify. split; [done|]. split; [done|].
    intros r updated' [[= ->]|Hin]%elem_of_cons; [congruence|].
    exfalso. revert r Hin. unfold notify. destruct (platform_web w); no_request.
Qed.
End AddOutcomes.

Lemma handleAddSpellsToGrimoire_outcome_witness :
  CharactersTab.spellSelectionCharacter
    (CharactersTab.handleAddSpellsToGrimoire (Sample.tabWorld Sample.apprentice)
       [Sample.fireball; Sample.shield] (Sample.roster Sample.apprentice)).1 =
  Some (Character.mk "c3" "Apprentice" "wizard" 3 12 12 None
          (Some [Character.KnownName "Fireball"; Character.KnownObject "Shield" 1])).
Proof.
  pose proof (handleAddSpellsToGrimoire_outcome (Sample.tabWorld Sample.apprentice)
                [Sample.fireball; Sample.shield] (Sample.roster Sample.apprentice))
    as (_ & _ & Hsuccess).
  refine (proj1 (Hsuccess
            {| Remote.url := "/api/characters/c3"; Remote.meth := Remote.PUT;
               Remote.authorization := Remote.bearer "token";
               Remote.payload :=
                 Remote.SpellsKnownBody
                   [Character.KnownName "Fireball"; Character.KnownObject "Shield" 1] |}
            _ _ eq_refl eq_refl)).
  apply list_elem_of_In. simpl. left. reflexivity.
Defined.

(** ** Adding the same spells again *)

Section AddTwice.
Import Remote CharactersTab.

(** X18. When the store applies the update it is sent, adding a batch of
    spells a second time, right after the first, changes nothing: no
    request is sent, the state stays as the first addition left it, and
    the one message shown says that all the spells are already in the
    grimoire. *)
Theorem handleAddSpellsToGrimoire_twice (w w' : world) (spells : list Spell.t)
    (st : state) (target : Character.t) (token token' : string) :
  spellSelectionCharacter st = Some target →
  session w = Session token →
  session w' = Session token' →
  (∀ req, put w req = Response true (Some (applyUpdate target (payload req)))) →
  let first := handleAddSpellsToGrimoire w spells st in
  let second := handleAddSpellsToGrimoire w' spells first.1 in
  second =
    (first.1,
     [notify (platform_web w') "Aviso"
        "Todas as magias selecionadas já estão no grimório do personagem."]).
Proof.
  intros Htarget Hsess Hsess' Hput first second.
  assert (Hknown : ∃ chosen,
            spellSelectionCharacter first.1 = Some chosen ∧
            ∀ spell, spell ∈ spells →
              Spell.name spell ∈
                Character.knownSpellName <$> default [] (Character.spells_known chosen)).
  { unfold first, handleAddSpellsToGrimoire. rewrite Htarget, Hsess.
    destruct (List.filter _ spells) as [|s0 rest] eqn:Hnew.
    - exists target. split; [done|]. intros spell Hin.
      destruct (decide (Spell.name spell ∈
                  Character.knownSpellName <$> default [] (Character.spells_known target)))
        as [|Hnot]; [done|].
      assert (Hf : spell ∈ List.filter
                (λ spell, negb (bool_decide (Spell.name spell ∈
                   Character.knownSpellName <$> default [] (Character.spells_known target))))
                spells).
      { apply list_elem_of_In, filter_In. split; [by apply list_elem_of_In|].
        by rewrite bool_decide_eq_false_2. }
      rewrite Hnew in Hf. by apply elem_of_nil in Hf.
    - rewrite Hput. cbv zeta.
      destruct (loadCharacters (reload w) st _) as [st4 evs] eqn:Hload.
      match type of Hload with
      | loadCharacters ?lw ?snap ?st3 = _ =>
          pose proof (loadCharacters_keeps lw snap st3) as [Hkeep _]
      end.
      rewrite Hload in Hkeep. simpl in Hkeep. simpl.
      eexists. split; [exact Hkeep|]. simpl.
      intros spell Hin. rewrite fmap_app. apply elem_of_app.
      destruct (decide (Spell.name spell ∈
                  Character.knownSpellName <$> default [] (Character.spells_known target)))
        as [|Hnot]; [by left|right].
      assert (Hf : spell ∈ s0 :: rest).
      { rewrite <- Hnew. apply list_elem_of_In, filter_In.
        split; [by apply list_elem_of_In|]. by rewrite bool_decide_eq_false_2. }
      apply list_elem_of_fmap.
      exists (Character.KnownObject (Spell.name spell) (Spell.level spell)).
      split; [done|].
      exact (list_elem_of_fmap_2
               (λ spell, Character.KnownObject (Spell.name spell) (Spell.level spell))
               (s0 :: rest) spell Hf). }
  destruct Hknown as (chosen & Hchosen & Hall).
  unfold second, handleAddSpellsToGrimoire. rewrite Hchosen, Hsess'.
  replace (List.filter _ spells) with (@nil Spell.t); [done|].
  symmetry. clear -Hall. induction spells as [|spell spells IH]; [done|].
  simpl. rewrite bool_decide_eq_true_2 by (apply Hall; left). simpl.
  apply IH. intros s Hs. apply Hall. by right.
Qed.
End AddTwice.

Lemma handleAddSpellsToGrimoire_twice_witness :
  let first :=
    CharactersTab.handleAddSpellsToGrimoire (Sample.tabWorld Sample.apprentice)
      [Sample.fireball; Sample.shield] (Sample.roster Sample.apprentice) in
  CharactersTab.handleAddSpellsToGrimoire (Sample.tabWorld Sample.apprentice)
    [Sample.fireball; Sample.shield] first.1 =
  (first.1,
   [Remote.Alert "Aviso"
      "Todas as magias selecionadas já estão no grimório do personagem."]).
Proof.
  exact (handleAddSpellsToGrimoire_twice (Sample.tabWorld Sample.apprentice)
           (Sample.tabWorld Sample.apprentice) [Sample.fireball; Sample.shield]
           (Sample.roster Sample.apprentice) Sample.apprentice "token" "token"
           eq_refl eq_refl eq_refl (λ _, eq_refl)).
Defined.

(** ** Deletion in the screen's second version *)

Section ScreenDeletion.
Import Remote CharactersTab.

Lemma screen_loadCharacters_keeps w snap st :
  spellSelectionCharacter (CharactersScreen.loadCharacters w snap st).1 =
    spellSelectionCharacter st.
Proof.
  unfold CharactersScreen.loadCharacters.
  destruct (load_session w) as [| |token]; [done..|].
  destruct (load_get w _) as [|[] [fetched|]]; try done.
  simpl. by destruct (selectedCharacter snap).
Qed.

Lemma screen_loadCharacters_silent w snap st :
  messages (CharactersScreen.loadCharacters w snap st).2 = [].
Proof.
  unfold CharactersScreen.loadCharacters.
  destruct (load_session w) as [| |token]; [done..|].
  by destruct (load_get w _) as [|[] [fetched|]].
Qed.

Lemma elem_of_filter_other_id (characterId : string) (l : list Character.t) c :
  c ∈ List.filter (λ c, negb (bool_decide (Character.id c = characterId))) l →
  Character.id c ≠ characterId.
Proof.
  intros [_ Hc]%list_elem_of_In%filter_In.
  apply negb_true_iff, bool_decide_eq_false in Hc. exact Hc.
Qed.

(** X19. In the screen's second version, a deletion the store completed
    without error leaves no trace of the character, provided the list
    fetched afterwards (if one is fetched) no longer holds it: the
    character is neither in the list, nor open, nor the one whose spells
    are being chosen; the flags are off and the one message shown is the
    success one. *)
Theorem handleDeleteCharacter_screen_removes (w : world) (characterId : string)
    (st : state) (token : string) (u : User) :
  session w = Session token →
  user st = Some u →
  delete_character w characterId (user_id u) = Deleted None →
  (∀ token' fetched c,
     load_session (reload w) = Session token' →
     load_get (reload w) {| url := "/api/characters"; meth := GET;
                            authorization := bearer token'; payload := NoBody |} =
       Response true (Some fetched) →
     c ∈ fetched → Character.id c ≠ characterId) →
  let run := CharactersScreen.handleDeleteCharacter w characterId st in
  (∀ c, c ∈ characters run.1 → Character.id c ≠ characterId) ∧
  (∀ c, selectedCharacter run.1 = Some c → Character.id c ≠ characterId) ∧
  (∀ c, spellSelectionCharacter run.1 = Some c → Character.id c ≠ characterId) ∧
  loading run.1 = false ∧ refreshing run.1 = false ∧
  messages run.2 =
    [notify (platform_web w) "Sucesso" "Personagem excluído com sucesso!"].
Proof.
  intros Hsess Huser Hdel Hgone run.
  unfold run, CharactersScreen.handleDeleteCharacter. rewrite Hsess, Huser, Hdel.
  set (st1 := setCharacters _ st).
  set (st2 := if sameId (selectedCharacter st) characterId
              then setSelectedCharacter None st1 else st1).
  set (st3 := if sameId (spellSelectionCharacter st) characterId
              then setSpellSelectionCharacter None st2 else st2).
  assert (Hc3 : ∀ c, c ∈ characters st3 → Character.id c ≠ characterId).
  { intros c. unfold st3, st2, st1.
    destruct (sameId (spellSelectionCharacter st) characterId),
             (sameId (selectedCharacter st) characterId); simpl;
      apply elem_of_filter_other_id. }
  assert (Hs3 : ∀ c, selectedCharacter st3 = Some c → Character.id c ≠ characterId).
  { intros c. unfold st3, st2, st1, sameId.
    destruct (spellSelectionCharacter st) as [p|], (selectedCharacter st) as [q|] eqn:Hq;
      simpl; repeat case_bool_decide; simpl; try done; rewrite ?Hq; congruence. }
  assert (Hp3 : ∀ c, spellSelectionCharacter st3 = Some c → Character.id c ≠ characterId).
  { intros c. unfold st3, st2, st1, sameId.
    destruct (spellSelectionCharacter st) as [p|] eqn:Hp, (selectedCharacter st) as [q|];
      simpl; repeat case_bool_decide; simpl; try done; rewrite ?Hp; congruence. }
  pose proof (screen_loadCharacters_keeps (reload w) st st3) as Hkeep.
  pose proof (screen_loadCharacters_silent (reload w) st st3) as Hsilent.
  assert (Hload :
    let r := CharactersScreen.loadCharacters (reload w) st st3 in
    (∀ c, c ∈ characters r.1 → Character.id c ≠ characterId) ∧
    (∀ c, selectedCharacter r.1 = Some c → Character.id c ≠ characterId) ∧
    loading r.1 = false ∧ refreshing r.1 = false).
  { unfold CharactersScreen.loadCharacters.
    destruct (load_session (reload w)) as [| |token'] eqn:Hls; [done..|].
    destruct (load_get (reload w) _) as [|[] [fetched|]] eqn:Hget; try done.
    split; [|split; [|done]].
    - intros c Hin. apply (Hgone token' fetched c eq_refl Hget).
      by destruct (selectedCharacter st).
    - intros c Hc. destruct (selectedCharacter st) as [sel|] eqn:Hsel.
      + apply (Hgone token' fetched c eq_refl Hget).
        apply list_elem_of_In. simpl in Hc. by apply find_some in Hc as [? _].
      + by apply Hs3. }
  destruct (CharactersScreen.loadCharacters (reload w) st st3) as [st4 evs].
  simpl in *. destruct Hload as (Hc4 & Hs4 & Hl4 & Hr4).
  rewrite messages_notify, Hsilent.
  split; [exact Hc4|]. split; [exact Hs4|].
  split; [by rewrite Hkeep|]. done.
Qed.

(** X21. Every run of that deletion shows exactly one message, and the
    only request it fetches is the reload of the list.  The state changes
    only when there was a session and a user and the store completed the
    deletion without error. *)
Theorem handleDeleteCharacter_screen_failure (w : world) (characterId : string)
    (st : state) :
  let run := CharactersScreen.handleDeleteCharacter w characterId st in
  length (messages run.2) = 1%nat ∧
  (∀ r, Sent r ∈ run.2 → meth r = GET) ∧
  (run.1 ≠ st →
   ∃ token u,
     session w = Session token ∧ user st = Some u ∧
     delete_character w characterId (user_id u) = Deleted None).
Proof.
  intros run. unfold run, CharactersScreen.handleDeleteCharacter.
  destruct (session w) as [| |token] eqn:Hsess.
  1,2: simpl; rewrite ?messages_notify; (split; [done|]); (split; [|done]);
    intros r Hin; exfalso; revert r Hin; unfold notify;
    destruct (platform_web w); no_request.
  destruct (user st) as [u|] eqn:Huser.
  2:{ simpl. rewrite messages_notify. split; [done|]. split; [|done].
      intros r Hin. exfalso. revert r Hin. unfold notify.
      destruct (platform_web w); no_request. }
  destruct (delete_character w characterId (user_id u)) as [|[error|]] eqn:Hdel.
  1,2: simpl; rewrite ?messages_notify; (split; [done|]); (split; [|done]);
    intros r Hin; exfalso; revert r Hin; unfold notify;
    destruct (platform_web w); no_request.
  match goal with
  | |- context [CharactersScreen.loadCharacters ?lw ?snap ?st3] =>
      pose proof (screen_loadCharacters_silent lw snap st3) as Hsilent;
      assert (Hget : ∀ r, Sent r ∈ (CharactersScreen.loadCharacters lw snap st3).2 →
                          meth r = GET);
      [|destruct (CharactersScreen.loadCharacters lw snap st3) as [st4 evs]]
  end.
  { intros r. unfold CharactersScreen.loadCharacters.
    destruct (load_session (reload w)) as [| |token']; simpl.
    - intros [[=]|?%elem_of_nil]%elem_of_cons; done.
    - by intros ?%elem_of_nil.
    - destruct (load_get (reload w) _) as [|[] [cs|]]; simpl; intros Hin;
        repeat (apply elem_of_cons in Hin as [Hin|Hin];
                [by (injection Hin as ->) || discriminate Hin|]);
        by apply elem_of_nil in Hin. }
  simpl in *. rewrite messages_notify, Hsilent.
  split; [done|]. split; [|by eauto].
  intros r [Hin|Hin]%elem_of_cons; [|by apply Hget].
  unfold notify in Hin. by destruct (platform_web w).
Qed.
End ScreenDeletion.

Lemma handleDeleteCharacter_screen_removes_witness :
  let run :=
    CharactersScreen.handleDeleteCharacter (Sample.tabWorld Sample.novice) "c4"
      (Sample.roster Sample.novice) in
  (∀ c, c ∈ CharactersTab.characters run.1 → Character.id c ≠ "c4") ∧
  (∀ c, CharactersTab.selectedCharacter run.1 = Some c → Character.id c ≠ "c4") ∧
  (∀ c, CharactersTab.spellSelectionCharacter run.1 = Some c → Character.id c ≠ "c4") ∧
  CharactersTab.loading run.1 = false ∧ CharactersTab.refreshing run.1 = false ∧
  messages run.2 = [Remote.Alert "Sucesso" "Personagem excluído com sucesso!"].
Proof.
  apply (handleDeleteCharacter_screen_removes (Sample.tabWorld Sample.novice) "c4"
           (Sample.roster Sample.novice) "token" {| CharactersTab.user_id := "u1" |}
           eq_refl eq_refl eq_refl).
  intros token' fetched c _ Hget Hin. injection Hget as <-.
  by apply elem_of_nil in Hin.
Defined.

Lemma handleDeleteCharacter_screen_failure_witness :
  ∃ token u,
    CharactersTab.session (Sample.tabWorld Sample.novice) = Remote.Session token ∧
    CharactersTab.user (Sample.roster Sample.novice) = Some u ∧
    CharactersTab.delete_character (Sample.tabWorld Sample.novice) "c4"
      (CharactersTab.user_id u) = CharactersTab.Deleted None.
Proof.
  apply (proj2 (proj2 (handleDeleteCharacter_screen_failure
                         (Sample.tabWorld Sample.novice) "c4"
                         (Sample.roster Sample.novice)))).
  discriminate.
Defined.
